(** * A pool of goroutines fed through an unbuffered channel

    Model of [concurrency/worker_unbuffed/main.go]: the [Pool] type with
    [New], [Run] and [Shutdown], the goroutines started by [New], and the
    client goroutines that call the pool.

    Goroutines are interleaved one statement at a time.  A schedule is a
    list of labels; each label names the goroutine (or, for a rendezvous on
    an unbuffered channel, the pair of goroutines) that takes the next
    step.  [step] is a partial function: [None] means the labelled step is
    not enabled (the goroutine is blocked, or is not at that statement). *)

From stdpp Require Import base option list strings.
From Stdlib Require Import ZArith Lia.

Local Open Scope Z_scope.

(** ** Data *)

(** Go's [error]: [nil] is [None], [errors.New s] is [Some s]. *)
Definition error : Type := option string.

(** [type Worker interface { Task() error }].  The outcome of [Task] is a
    function of the receiver; sleeping and logging are not modelled. *)
Class Worker (W : Type) := Task : W → error.

(** An unbuffered channel holds no value: its state is open or closed. *)
Inductive chan : Set := Open | Closed.

(** [type Pool struct { work chan Worker; wg sync.WaitGroup; errChan chan error }];
    [wg] is the WaitGroup counter. *)
Record Pool : Set := mkPool { work : chan; wg : Z; errChan : chan }.

(** Where a goroutine started by [New] stands in
    [for w := range p.work { p.errChan <- w.Task() }; p.wg.Done()]. *)
Inductive goroutine (W : Type) : Type :=
| GRange                       (* blocked receiving at [range p.work] *)
| GTask (w : W)                (* inside [w.Task()] *)
| GSend (w : W) (e : error)    (* blocked at [p.errChan <- e] *)
| GLeft                        (* loop ended, before [p.wg.Done()] *)
| GExit                        (* after [p.wg.Done()]: terminated *)
| GPanic.                      (* panicked *)
Arguments GRange {W}.
Arguments GTask {W} w.
Arguments GSend {W} w e.
Arguments GLeft {W}.
Arguments GExit {W}.
Arguments GPanic {W}.

(** Pool operations a client goroutine performs, in program order. *)
Inductive call (W : Type) : Type :=
| CRun (w : W)
| CShutdown.
Arguments CRun {W} w.
Arguments CShutdown {W}.

(** What a finished call returned. *)
Inductive ret (W : Type) : Type :=
| RRun (w : W) (e : error)     (* [p.Run(w)] returned [e] *)
| RShutdown.                   (* [p.Shutdown()] returned *)
Arguments RRun {W} w e.
Arguments RShutdown {W}.

(** Where a client goroutine stands inside [Run] or [Shutdown]. *)
Inductive pc (W : Type) : Type :=
| Idle                         (* between two calls *)
| RunSend (w : W)              (* at [p.work <- w] *)
| RunRecv (w : W)              (* at [err = <-p.errChan] *)
| ShutCloseWork                (* at [close(p.work)] *)
| ShutCloseErr                 (* at [close(p.errChan)] *)
| ShutWait                     (* at [p.wg.Wait()] *)
| Panicked.
Arguments Idle {W}.
Arguments RunSend {W} w.
Arguments RunRecv {W} w.
Arguments ShutCloseWork {W}.
Arguments ShutCloseErr {W}.
Arguments ShutWait {W}.
Arguments Panicked {W}.

Record thread (W : Type) : Type := mkThread {
  at_pc : pc W;                (* current statement *)
  todo : list (call W);        (* calls still to make *)
  rets : list (ret W)          (* calls that returned, oldest first *)
}.
Arguments mkThread {W} _ _ _.
Arguments at_pc {W} _.
Arguments todo {W} _.
Arguments rets {W} _.

(** The whole program: the pool, the goroutines of [New], the clients, and
    whether an unrecovered panic has ended the process. *)
Record machine (W : Type) : Type := mkMachine {
  pool : Pool;
  gos : list (goroutine W);
  thr : list (thread W);
  crashed : bool
}.
Arguments mkMachine {W} _ _ _ _.
Arguments pool {W} _.
Arguments gos {W} _.
Arguments thr {W} _.
Arguments crashed {W} _.

Inductive label : Set :=
| LCall (t : nat)              (* client t enters its next call *)
| LHandoff (t j : nat)         (* [p.work <- w] of t meets the receive of goroutine j *)
| LSendClosed (t : nat)        (* [p.work <- w] of t on the closed channel *)
| LTask (j : nat)              (* [w.Task()] returns in goroutine j *)
| LDeliver (j t : nat)         (* [p.errChan <- e] of j meets [<-p.errChan] of t *)
| LErrSendClosed (j : nat)     (* [p.errChan <- e] of j on the closed channel *)
| LErrRecvClosed (t : nat)     (* [<-p.errChan] of t on the closed channel *)
| LRangeEnd (j : nat)          (* goroutine j's range sees [p.work] closed *)
| LDone (j : nat)              (* [p.wg.Done()] in goroutine j *)
| LCloseWork (t : nat)         (* [close(p.work)] *)
| LCloseErr (t : nat)          (* [close(p.errChan)] *)
| LWait (t : nat).             (* [p.wg.Wait()] returns *)

(** ** Operations *)

Section Pool.
Context {W : Type} `{!Worker W}.

(** [New]: both channels are made unbuffered, [p.wg.Add(maxGoroutines)]
    panics on a negative counter, and the loop starts one goroutine per
    iteration. *)
Definition New (maxGoroutines : Z) : option (Pool * list (goroutine W)) :=
  if maxGoroutines <? 0 then None
  else Some (mkPool Open maxGoroutines Open,
             replicate (Z.to_nat maxGoroutines) GRange).

Definition set_pc (th : thread W) (c : pc W) : thread W :=
  mkThread c (todo th) (rets th).

(** A call returns: back to [Idle] with the result recorded. *)
Definition returned (th : thread W) (r : ret W) : thread W :=
  mkThread Idle (todo th) (rets th ++ [r]).

Definition enter (c : call W) : pc W :=
  match c with
  | CRun w => RunSend w
  | CShutdown => ShutCloseWork
  end.

Definition upd_thr (m : machine W) (t : nat) (th : thread W) : machine W :=
  mkMachine (pool m) (gos m) (<[t := th]> (thr m)) (crashed m).

Definition upd_go (m : machine W) (j : nat) (g : goroutine W) : machine W :=
  mkMachine (pool m) (<[j := g]> (gos m)) (thr m) (crashed m).

Definition upd_pool (m : machine W) (p : Pool) : machine W :=
  mkMachine p (gos m) (thr m) (crashed m).

(** An unrecovered panic ends the process. *)
Definition crash (m : machine W) : machine W :=
  mkMachine (pool m) (gos m) (thr m) true.

Definition step (l : label) (m : machine W) : option (machine W) :=
  if crashed m then None else
  match l with
  | LCall t =>
      th ← thr m !! t;
      match at_pc th, todo th with
      | Idle, c :: rest => Some (upd_thr m t (mkThread (enter c) rest (rets th)))
      | _, _ => None
      end
  | LHandoff t j =>
      th ← thr m !! t;
      g ← gos m !! j;
      match at_pc th, g, work (pool m) with
      | RunSend w, GRange, Open =>
          Some (upd_go (upd_thr m t (set_pc th (RunRecv w))) j (GTask w))
      | _, _, _ => None
      end
  | LSendClosed t =>
      th ← thr m !! t;
      match at_pc th, work (pool m) with
      | RunSend w, Closed => Some (crash (upd_thr m t (set_pc th Panicked)))
      | _, _ => None
      end
  | LTask j =>
      g ← gos m !! j;
      match g with
      | GTask w => Some (upd_go m j (GSend w (Task w)))
      | _ => None
      end
  | LDeliver j t =>
      g ← gos m !! j;
      th ← thr m !! t;
      match g, at_pc th, errChan (pool m) with
      | GSend _ e, RunRecv w, Open =>
          Some (upd_go (upd_thr m t (returned th (RRun w e))) j GRange)
      | _, _, _ => None
      end
  | LErrSendClosed j =>
      g ← gos m !! j;
      match g, errChan (pool m) with
      | GSend _ _, Closed => Some (crash (upd_go m j GPanic))
      | _, _ => None
      end
  | LErrRecvClosed t =>
      th ← thr m !! t;
      match at_pc th, errChan (pool m) with
      | RunRecv w, Closed => Some (upd_thr m t (returned th (RRun w None)))
      | _, _ => None
      end
  | LRangeEnd j =>
      g ← gos m !! j;
      match g, work (pool m) with
      | GRange, Closed => Some (upd_go m j GLeft)
      | _, _ => None
      end
  | LDone j =>
      g ← gos m !! j;
      match g with
      | GLeft =>
          let p := pool m in
          if wg p <? 1 then Some (crash (upd_go m j GPanic))
          else Some (upd_pool (upd_go m j GExit)
                       (mkPool (work p) (wg p - 1) (errChan p)))
      | _ => None
      end
  | LCloseWork t =>
      th ← thr m !! t;
      let p := pool m in
      match at_pc th, work p with
      | ShutCloseWork, Open =>
          Some (upd_pool (upd_thr m t (set_pc th ShutCloseErr))
                  (mkPool Closed (wg p) (errChan p)))
      | ShutCloseWork, Closed => Some (crash (upd_thr m t (set_pc th Panicked)))
      | _, _ => None
      end
  | LCloseErr t =>
      th ← thr m !! t;
      let p := pool m in
      match at_pc th, errChan p with
      | ShutCloseErr, Open =>
          Some (upd_pool (upd_thr m t (set_pc th ShutWait))
                  (mkPool (work p) (wg p) Closed))
      | ShutCloseErr, Closed => Some (crash (upd_thr m t (set_pc th Panicked)))
      | _, _ => None
      end
  | LWait t =>
      th ← thr m !! t;
      match at_pc th with
      | ShutWait =>
          if wg (pool m) =? 0 then Some (upd_thr m t (returned th RShutdown))
          else None
      | _ => None
      end
  end.

Fixpoint run (sched : list label) (m : machine W) : option (machine W) :=
  match sched with
  | [] => Some m
  | l :: ls => m' ← step l m; run ls m'
  end.

(** The program that calls [New(maxGoroutines)] and then starts one client
    goroutine per list of calls. *)
Definition boot (maxGoroutines : Z) (progs : list (list (call W)))
  : option (machine W) :=
  '(p, gs) ← New maxGoroutines;
  Some (mkMachine p gs ((λ cs, mkThread Idle cs []) <$> progs) false).

End Pool.

(** ** The demonstration task *)

(** [type namePrinter struct { name string }] *)
Record namePrinter : Set := mkNamePrinter { name : string }.

(** [func (m *namePrinter) Task() error] *)
#[export] Instance namePrinter_Task : Worker namePrinter := λ m,
  if String.eqb (name m) "jason" then Some "Invalid name"%string else None.

(** ** Observations on a machine state *)

Section Observe.
Context {W : Type}.

Fixpoint countb {A : Type} (f : A → bool) (l : list A) : nat :=
  match l with
  | [] => 0%nat
  | x :: l' => ((if f x then 1 else 0) + countb f l')%nat
  end.

(** Inside [Task()]. *)
Definition in_task (g : goroutine W) : bool :=
  match g with GTask _ => true | _ => false end.

(** Holding a task: inside [Task()] or waiting to hand its outcome back. *)
Definition busy (g : goroutine W) : bool :=
  match g with GTask _ | GSend _ _ => true | _ => false end.

(** Still inside the [for ... range] loop. *)
Definition in_loop (g : goroutine W) : bool :=
  match g with GRange | GTask _ | GSend _ _ => true | _ => false end.

(** Has not yet called [p.wg.Done()]. *)
Definition not_done (g : goroutine W) : bool :=
  match g with GExit => false | _ => true end.

(** Past the send of [Run], waiting for an outcome. *)
Definition awaiting (th : thread W) : bool :=
  match at_pc th with RunRecv _ => true | _ => false end.

(** Inside [Shutdown], past [close(p.work)]. *)
Definition past_close (th : thread W) : bool :=
  match at_pc th with ShutCloseErr | ShutWait => true | _ => false end.


(** Number of tasks executing at this instant. *)
Definition executing (m : machine W) : nat := countb in_task (gos m).

End Observe.

(** ** The invariant of every run *)

Definition b2n (b : bool) : nat := if b then 1%nat else 0%nat.

Section Invariant.
Context {W : Type} `{!Worker W}.

(** What holds in every state of a program that started with
    [New(N)], whatever its clients do. *)
Record Inv (N : Z) (m : machine W) : Prop := mkInv {
  (* the goroutines of [New] are never added to or removed *)
  inv_len : length (gos m) = Z.to_nat N;
  (* [Shutdown] closes [work] before [errChan] *)
  inv_err_work : errChan (pool m) = Closed → work (pool m) = Closed;
  (* the WaitGroup counts the goroutines that have not called [Done] *)
  inv_wg : wg (pool m) = Z.of_nat (countb not_done (gos m));
  (* no goroutine leaves its loop while [work] is open *)
  inv_loop : work (pool m) = Open →
             ∀ j g, gos m !! j = Some g → in_loop g = true;
  (* every accepted send of [Run] is matched by one goroutine holding a task *)
  inv_pair : errChan (pool m) = Open →
             countb awaiting (thr m) = countb busy (gos m);
  (* the value a goroutine sends back is what [Task] returned *)
  inv_out : ∀ j w e, gos m !! j = Some (GSend w e) → e = Task w;
  (* a client past [close(p.work)] has closed it *)
  inv_shut : ∀ t th, thr m !! t = Some th → past_close th = true →
             work (pool m) = Closed;
  (* once a [Shutdown] has returned, every goroutine of [New] has exited *)
  inv_after : ∀ t th, thr m !! t = Some th → RShutdown ∈ rets th →
              work (pool m) = Closed ∧ ∀ j g, gos m !! j = Some g → g = GExit
}.

(** The state of the program [boot N progs] after the schedule [sched]. *)
Definition program (N : Z) (progs : list (list (call W))) (sched : list label)
  : option (machine W) :=
  m0 ← boot N progs; run sched m0.


(** [Run(w)] returning what [w.Task()] returned. *)
Definition own (w : W) : ret W := RRun w (Task w).

Definition all_ranging (gs : list (goroutine W)) : Prop :=
  ∀ j g, gs !! j = Some g → g = GRange.

(** Where the one client of a sequential program stands when [k] of its
    [Run] calls on the tasks [ws] have returned: between two calls, at the
    send (no goroutine holds a task), or at the receive (one goroutine
    holds the task of this call, the others wait). *)
Inductive phase (ws : list W) (k : nat) (th : thread W)
    (gs : list (goroutine W)) : Prop :=
| ph_idle :
    at_pc th = Idle → todo th = CRun <$> drop k ws → all_ranging gs →
    phase ws k th gs
| ph_send w :
    at_pc th = RunSend w → ws !! k = Some w →
    todo th = CRun <$> drop (S k) ws → all_ranging gs →
    phase ws k th gs
| ph_recv w j g :
    at_pc th = RunRecv w → ws !! k = Some w →
    todo th = CRun <$> drop (S k) ws →
    gs !! j = Some g → g = GTask w ∨ g = GSend w (Task w) →
    (∀ j' g', j' ≠ j → gs !! j' = Some g' → g' = GRange) →
    phase ws k th gs.

(** The states of a program whose one client calls [Run] on the tasks
    [ws], one after the other: every call that returned did so with the
    outcome of its own task. *)
Definition SInv (ws : list W) (m : machine W) : Prop :=
  work (pool m) = Open ∧ errChan (pool m) = Open ∧ crashed m = false ∧
  ∃ th k, thr m = [th] ∧ rets th = own <$> take k ws ∧ phase ws k th (gos m).

(** The schedule that serves one [Run] call after the other on goroutine 0. *)
Fixpoint serve (n : nat) : list label :=
  match n with
  | O => []
  | S n' => LCall 0 :: LHandoff 0 0 :: LTask 0 :: LDeliver 0 0 :: serve n'
  end.

End Invariant.

(** ** Sample programs on the demonstration task *)

Definition steve : namePrinter := mkNamePrinter "steve".
Definition jason : namePrinter := mkNamePrinter "jason".

(** Two goroutines, each calling [Run] once, as [main] starts them. *)
Definition duo : list (list (call namePrinter)) := [[CRun steve]; [CRun jason]].

(** Both calls handed to the two goroutines of [New(2)]. *)
Definition two_busy : machine namePrinter :=
  mkMachine (mkPool Open 2 Open) [GTask steve; GTask jason]
    [mkThread (RunRecv steve) [] []; mkThread (RunRecv jason) [] []] false.

(** The one goroutine of [New(1)] busy, the second caller at its send. *)
Definition one_busy : machine namePrinter :=
  mkMachine (mkPool Open 1 Open) [GTask steve]
    [mkThread (RunRecv steve) [] []; mkThread (RunSend jason) [] []] false.

(** [New(1)] after a [Shutdown] that returned. *)
Definition shut_down (th : thread namePrinter) : machine namePrinter :=
  mkMachine (mkPool Closed 0 Closed) [GExit] [th] false.

Definition shutdown_alone : list label :=
  [LCall 0; LCloseWork 0; LCloseErr 0; LRangeEnd 0; LDone 0; LWait 0].

(** The two calls of [duo] accepted, then the task of the second caller
    finishing first and its outcome taken by the first caller. *)
Definition crossed : list label :=
  [LCall 0; LCall 1; LHandoff 0 0; LHandoff 1 1; LTask 1; LDeliver 1 0].

(** [Shutdown] run to [p.wg.Wait()] while the goroutine is inside
    [Task()], which then returns. *)
Definition early_close : list label :=
  [LCall 0; LHandoff 0 0; LCall 1; LCloseWork 1; LCloseErr 1; LTask 0;
   LErrSendClosed 0].

(** ** Programs that only submit work *)

Section Accounting.
Context {W : Type} `{!Worker W}.

Definition is_run (c : call W) : bool :=
  match c with CRun _ => true | CShutdown => false end.

(** No client ever calls [Shutdown]. *)
Definition run_only (progs : list (list (call W))) : bool :=
  forallb (forallb is_run) progs.

(** Outside [Shutdown] and not panicked. *)
Definition in_run (th : thread W) : bool :=
  match at_pc th with Idle | RunSend _ | RunRecv _ => true | _ => false end.

(** A pool nobody has begun to shut down: both channels open, no panic,
    every client in or between [Run] calls with only [Run] calls ahead,
    every goroutine of [New] inside its loop. *)
Record Calm (m : machine W) : Prop := mkCalm {
  calm_work : work (pool m) = Open;
  calm_err : errChan (pool m) = Open;
  calm_crashed : crashed m = false;
  calm_thr : ∀ t th, thr m !! t = Some th →
             in_run th = true ∧ forallb is_run (todo th) = true;
  calm_gos : ∀ j g, gos m !! j = Some g → in_loop g = true
}.

Fixpoint total {A : Type} (f : A → nat) (l : list A) : nat :=
  match l with
  | [] => 0%nat
  | x :: l' => (f x + total f l')%nat
  end.

(** Steps a client still has to take part in as the sender: four per call
    not yet entered (enter, send, task, outcome), three once it stands at
    its send. *)
Definition thr_left (th : thread W) : nat :=
  (4 * length (todo th)
   + match at_pc th with RunSend _ => 3 | _ => 0 end)%nat.

(** Steps a goroutine still owes for the task it holds. *)
Definition go_left (g : goroutine W) : nat :=
  match g with GTask _ => 2%nat | GSend _ _ => 1%nat | _ => 0%nat end.

(** Steps left before every [Run] call of the program has returned. *)
Definition steps_left (m : machine W) : nat :=
  (total thr_left (thr m) + total go_left (gos m))%nat.

(** Number of pool calls in a program. *)
Definition calls (progs : list (list (call W))) : nat := total length progs.

(** Every client is between calls with nothing left to call. *)
Definition finished (th : thread W) : bool :=
  match at_pc th, todo th with Idle, [] => true | _, _ => false end.

Definition all_finished (m : machine W) : Prop :=
  ∀ t th, thr m !! t = Some th → finished th = true.

(** Outcomes with property [f]: returned by [Run] calls of a client, ... *)
Definition ret_has (f : error → bool) (r : ret W) : bool :=
  match r with RRun _ e => f e | RShutdown => false end.

Definition thr_returned (f : error → bool) (th : thread W) : nat :=
  countb (ret_has f) (rets th).

(** ... owed by the tasks a client has not handed over yet, ... *)
Definition call_has (f : error → bool) (c : call W) : bool :=
  match c with CRun w => f (Task w) | CShutdown => false end.

Definition thr_pending (f : error → bool) (th : thread W) : nat :=
  (countb (call_has f) (todo th)
   + match at_pc th with RunSend w => b2n (f (Task w)) | _ => 0 end)%nat.

(** ... and owed by the task a goroutine holds. *)
Definition go_pending (f : error → bool) (g : goroutine W) : nat :=
  match g with
  | GTask w => b2n (f (Task w))
  | GSend _ e => b2n (f e)
  | _ => 0%nat
  end.

Definition returned_outcomes (f : error → bool) (m : machine W) : nat :=
  total (thr_returned f) (thr m).

Definition pending_outcomes (f : error → bool) (m : machine W) : nat :=
  (total (thr_pending f) (thr m) + total (go_pending f) (gos m))%nat.

Definition submitted_outcomes (f : error → bool)
    (progs : list (list (call W))) : nat :=
  total (countb (call_has f)) progs.

(** The tasks a program submits. *)
Definition task_of (c : call W) : list W :=
  match c with CRun w => [w] | CShutdown => [] end.

Definition submitted (progs : list (list (call W))) : list W :=
  mjoin progs ≫= task_of.

(** A value [Run] may return for a program submitting the tasks [S]:
    [nil], or what the [Task] of one of them returned. *)
Definition from_tasks (S : list W) (e : error) : Prop :=
  e = None ∨ ∃ w, w ∈ S ∧ e = Task w.

(** Every task and every outcome in the state stems from the tasks [S]. *)
Record Traced (S : list W) (m : machine W) : Prop := mkTraced {
  tr_send : ∀ t th w, thr m !! t = Some th →
            at_pc th = RunSend w ∨ at_pc th = RunRecv w → w ∈ S;
  tr_todo : ∀ t th w, thr m !! t = Some th → CRun w ∈ todo th → w ∈ S;
  tr_rets : ∀ t th w e, thr m !! t = Some th → RRun w e ∈ rets th →
            w ∈ S ∧ from_tasks S e;
  tr_task : ∀ j w, gos m !! j = Some (GTask w) → w ∈ S;
  tr_out : ∀ j w e, gos m !! j = Some (GSend w e) → w ∈ S ∧ e = Task w
}.

(** On a pool of one goroutine: the task the goroutine holds is the task
    of whoever waits for an outcome, and every result returned so far is
    the outcome of the caller's own task. *)
Record Solo (m : machine W) : Prop := mkSolo {
  solo_held : ∀ t th w j g, thr m !! t = Some th → at_pc th = RunRecv w →
              gos m !! j = Some g → busy g = true →
              g = GTask w ∨ g = GSend w (Task w);
  solo_rets : ∀ t th w e, thr m !! t = Some th → RRun w e ∈ rets th →
              e = Task w
}.

End Accounting.

(** ** The driver: submit every task from its own goroutine, wait, shut down *)

Section Driver.
Context {W : Type} `{!Worker W}.

(** One goroutine per task, as the loop of [main] starts them:
    [go func() { p.Run(&np); wg.Done() }()]. *)
Definition clients (ws : list W) : list (list (call W)) :=
  (λ w, [CRun w]) <$> ws.

(** [wg.Wait()] in [main] returns once every client has called
    [wg.Done()], which a client does when its [Run] has returned; [main]
    then goes on to call [p.Shutdown()]. *)
Definition join (m : machine W) : option (machine W) :=
  if forallb finished (thr m)
  then Some (mkMachine (pool m) (gos m)
               (thr m ++ [mkThread Idle [CShutdown] []]) (crashed m))
  else None.

(** The program of [main] on a pool of [N] goroutines and the tasks [ws],
    under a schedule for the clients and one for what follows the wait. *)
Definition driver (N : Z) (ws : list W) (before after : list label)
  : option (machine W) :=
  m ← program N (clients ws) before; mj ← join m; run after mj.

(** Where the goroutine calling [Shutdown] stands, and what it has done to
    the pool by then. *)
Inductive shutting (p : Pool) (th : thread W) : Prop :=
| sh_start :
    at_pc th = Idle → todo th = [CShutdown] → rets th = [] →
    work p = Open → errChan p = Open → shutting p th
| sh_work :
    at_pc th = ShutCloseWork → todo th = [] → rets th = [] →
    work p = Open → errChan p = Open → shutting p th
| sh_err :
    at_pc th = ShutCloseErr → todo th = [] → rets th = [] →
    work p = Closed → errChan p = Open → shutting p th
| sh_wait :
    at_pc th = ShutWait → todo th = [] → rets th = [] →
    work p = Closed → errChan p = Closed → shutting p th
| sh_done :
    at_pc th = Idle → todo th = [] → rets th = [RShutdown] →
    work p = Closed → errChan p = Closed → wg p = 0 → shutting p th.

(** The states of the driver after the wait: client [K] is [main] inside
    [Shutdown], every other client has finished, no goroutine of [New]
    holds a task. *)
Record Closing (K : nat) (m : machine W) : Prop := mkClosing {
  cl_crashed : crashed m = false;
  cl_wg : wg (pool m) = Z.of_nat (countb not_done (gos m));
  cl_gos : ∀ j g, gos m !! j = Some g → g = GRange ∨ g = GLeft ∨ g = GExit;
  cl_open : work (pool m) = Open → ∀ j g, gos m !! j = Some g → g = GRange;
  cl_clients : ∀ t th, thr m !! t = Some th → t ≠ K → finished th = true;
  cl_main : ∃ th, thr m !! K = Some th ∧ shutting (pool m) th
}.

(** Statements of [Shutdown] the caller still has to execute. *)
Definition shut_left (th : thread W) : nat :=
  match at_pc th, todo th with
  | Idle, _ :: _ => 4%nat
  | ShutCloseWork, _ => 3%nat
  | ShutCloseErr, _ => 2%nat
  | ShutWait, _ => 1%nat
  | _, _ => 0%nat
  end.

(** Steps an idle goroutine of [New] takes to exit. *)
Definition exit_left (g : goroutine W) : nat :=
  match g with GRange => 2%nat | GLeft => 1%nat | _ => 0%nat end.

Definition closing_left (m : machine W) : nat :=
  (total shut_left (thr m) + total exit_left (gos m))%nat.

(** The call a result belongs to, and the call a client is inside. *)
Definition call_of (r : ret W) : call W :=
  match r with RRun w _ => CRun w | RShutdown => CShutdown end.

Definition current (th : thread W) : list (call W) :=
  match at_pc th with
  | Idle | Panicked => []
  | RunSend w | RunRecv w => [CRun w]
  | ShutCloseWork | ShutCloseErr | ShutWait => [CShutdown]
  end.

(** The calls of a client: those that returned, the one in progress,
    those still to make. *)
Definition history (th : thread W) : list (call W) :=
  (call_of <$> rets th) ++ current th ++ todo th.

End Driver.

(** [var names = []string{...}] *)
Definition names : list string :=
  ["steve"; "bob"; "mary"; "jason"; "Bob"; "Lee"; "Jane"]%string.

(** [func main()]: [New(2)], one goroutine per name submitting a
    [namePrinter], [wg.Wait()], [p.Shutdown()]. *)
Definition main (before after : list label) : option (machine namePrinter) :=
  driver 2 (mkNamePrinter <$> names) before after.

(** An error was reported: [err != nil], which [main] dumps. *)
Definition is_failure (e : error) : bool :=
  match e with Some _ => true | None => false end.

(** [duo] after the schedule [crossed]. *)
Definition after_crossed : machine namePrinter :=
  mkMachine (mkPool Open 2 Open) [GTask steve; GRange]
    [mkThread Idle [] [RRun steve (Some "Invalid name"%string)];
     mkThread (RunRecv jason) [] []] false.


(** [duo] on [New(1)] after the first caller has been served. *)
Definition solo_served : machine namePrinter :=
  mkMachine (mkPool Open 1 Open) [GRange]
    [mkThread Idle [] [RRun steve None]; mkThread Idle [CRun jason] []] false.

(** The schedule that serves the clients [0 .. n-1] in turn on goroutine 0. *)
Definition serve_each (n : nat) : list label :=
  flat_map (λ i, [LCall i; LHandoff i 0; LTask 0; LDeliver 0 i]) (seq 0 n).

(** [main] at the moment it has passed its wait, every client having been
    served its own outcome. *)
Definition main_joined : machine namePrinter :=
  mkMachine (mkPool Open 2 Open) [GRange; GRange]
    (((λ n, mkThread Idle []
              [RRun (mkNamePrinter n) (Task (mkNamePrinter n))]) <$> names)
     ++ [mkThread Idle [CShutdown] []]) false.

(** * Proofs *)

Section Proofs.
Context {W : Type} `{!Worker W}.
Implicit Types (m : machine W) (th : thread W) (g : goroutine W).

Lemma countb_insert {A} (f : A → bool) (l : list A) i x y :
  l !! i = Some x →
  (countb f (<[i:=y]> l) + b2n (f x) = countb f l + b2n (f y))%nat.
Proof.
  revert i. induction l as [|a l IH]; intros [|i] Hi; simplify_eq/=.
  - unfold b2n. lia.
  - specialize (IH _ Hi). lia.
Qed.

Lemma countb_replicate {A} (f : A → bool) n x :
  countb f (replicate n x) = (n * b2n (f x))%nat.
Proof. induction n as [|n IH]; simpl; [done|]. rewrite IH. unfold b2n. lia. Qed.

Lemma countb_le_length {A} (f : A → bool) (l : list A) :
  (countb f l ≤ length l)%nat.
Proof. induction l as [|a l IH]; simpl; [lia|]. destruct (f a); lia. Qed.

Lemma countb_zero {A} (f : A → bool) (l : list A) :
  countb f l = 0%nat → ∀ i x, l !! i = Some x → f x = false.
Proof.
  induction l as [|a l IH]; intros Hc [|i] x Hi; simplify_eq/=.
  - destruct (f x); [lia|done].
  - apply (IH ltac:(destruct (f a); lia) i x Hi).
Qed.

Lemma countb_pos {A} (f : A → bool) (l : list A) i x :
  l !! i = Some x → f x = true → (0 < countb f l)%nat.
Proof.
  intros Hi Hx. destruct (countb f l) eqn:Hc; [|lia].
  rewrite (countb_zero f l Hc i x Hi) in Hx. done.
Qed.

Ltac step_cases H :=
  unfold step in H;
  repeat (case_match; simplify_option_eq; try done).

Ltac chan_rw :=
  repeat match goal with
  | H : work (pool _) = _ |- _ => rewrite H in *
  | H : errChan (pool _) = _ |- _ => rewrite H in *
  | H : at_pc _ = _ |- _ => rewrite H in *
  end.

Ltac count_insert f :=
  repeat match goal with
  | Hl : ?l !! ?i = Some ?x |- context [countb f (<[?i:=?y]> ?l)] =>
      let E := fresh "E" in
      pose proof (countb_insert f l i x y Hl) as E;
      generalize dependent (countb f (<[i:=y]> l)); intros
  end.


Lemma step_len l m m' :
  step l m = Some m' → length (gos m') = length (gos m).
Proof.
  intros H0. destruct l; step_cases H0; cbn; by rewrite ?length_insert.
Qed.

Lemma step_thr_len l m m' :
  step l m = Some m' → length (thr m') = length (thr m).
Proof.
  intros H0. destruct l; step_cases H0; cbn; by rewrite ?length_insert.
Qed.

Lemma step_inv N l m m' : Inv N m → step l m = Some m' → Inv N m'.
Proof.
  intros [Hlen Hew Hwg Hloop Hpair Hout Hshut Hafter] Hs. split.
  - by rewrite (step_len _ _ _ Hs).
  - destruct l; step_cases Hs; cbn in *; chan_rw; try done; auto; try congruence;
      intros _;
      match goal with
      | Hth : thr m !! _ = Some ?th, Hp : at_pc ?th = _ |- _ =>
          apply (Hshut _ _ Hth); unfold past_close; by rewrite Hp
      end.
  - destruct l; step_cases Hs; cbn in *; try done;
      count_insert (@not_done W); unfold b2n in *; cbn in *; lia.
  - destruct l; step_cases Hs; cbn in *; try done;
      chan_rw; intros Ho j' g' Hj';
      try (apply list_lookup_insert_Some in Hj' as [(-> & <- & _)|[_ Hj']]);
      try done; eauto; try congruence;
      first [ rewrite Hew in Ho by done; done
            | match goal with
              | Hg : gos m !! _ = Some _ |- _ => by specialize (Hloop Ho _ _ Hg)
              end ].
  - destruct l; step_cases Hs; cbn in *; try done; intros Ho;
      try (specialize (Hpair Ho)); try (specialize (Hpair eq_refl));
      try congruence;
      count_insert (@busy W); count_insert (@awaiting W);
      unfold b2n, awaiting in *; cbn in *; chan_rw;
      try lia;
      try match goal with c : call W |- _ => destruct c; cbn in *; lia end.
  - destruct l; step_cases Hs; cbn in *; try done;
      intros j' w' e' Hj';
      try (apply list_lookup_insert_Some in Hj' as [(-> & ? & _)|[_ Hj']]);
      simplify_eq; eauto.
  - destruct l; step_cases Hs; cbn in *; chan_rw; try done;
      intros t' th' Ht' Hp';
      try (apply list_lookup_insert_Some in Ht' as [(-> & <- & _)|[_ Ht']]);
      try done; eauto;
      try (by destruct c);
      try match goal with
      | Hth : thr m !! _ = Some ?th, Hp : at_pc ?th = _ |- _ =>
          apply (Hshut _ _ Hth); unfold past_close; by rewrite Hp
      end.
  - destruct l; step_cases Hs; cbn in *; try done;
      intros t' th' Ht' Hr';
      try (apply list_lookup_insert_Some in Ht' as [(-> & <- & _)|[_ Ht']]);
      cbn in *;
      try (apply elem_of_app in Hr' as [Hr'|Hr'];
           [|apply list_elem_of_singleton in Hr'; try done]);
      try (destruct (Hafter _ _ ltac:(eassumption) Hr') as [Hw Hg]);
      try match goal with
          | Hj : gos m !! _ = Some _ |- _ => by specialize (Hg _ _ Hj)
          end;
      try done.
    split.
    + match goal with
      | Hth : thr m !! _ = Some ?th, Hp : at_pc ?th = _ |- _ =>
          apply (Hshut _ _ Hth); unfold past_close; by rewrite Hp
      end.
    + intros j g Hj.
      match goal with Hz : (_ =? 0) = true |- _ => apply Z.eqb_eq in Hz; rewrite Hz in Hwg end.
      assert (not_done g = false) as Hnd
        by (apply (countb_zero not_done (gos m) ltac:(lia) j g Hj)).
      by destruct g.
Qed.

Lemma run_inv N sched m m' : Inv N m → run sched m = Some m' → Inv N m'.
Proof.
  revert m. induction sched as [|l ls IH]; intros m Hi Hr; simplify_option_eq.
  - done.
  - eauto using step_inv.
Qed.

Lemma boot_inv N progs m : boot N progs = Some m → Inv N m.
Proof.
  unfold boot, New. intros Hb. destruct (Z.ltb_spec N 0); simplify_option_eq.
  split; cbn; try done.
  - by rewrite length_replicate.
  - rewrite countb_replicate. cbn. lia.
  - intros _ j g [-> _]%lookup_replicate. done.
  - intros _. rewrite countb_replicate. cbn.
    induction progs as [|cs progs IH]; cbn; lia.
  - intros j w e [? _]%lookup_replicate. done.
  - intros t th (cs & -> & _)%list_lookup_fmap_Some. done.
  - intros t th (cs & -> & _)%list_lookup_fmap_Some. cbn. by intros ?%elem_of_nil.
Qed.

Lemma program_inv N progs sched m : program N progs sched = Some m → Inv N m.
Proof.
  unfold program. intros Hp.
  destruct (boot N progs) as [m0|] eqn:Hb; simplify_option_eq.
  eauto using run_inv, boot_inv.
Qed.


Lemma countb_all {A} (f : A → bool) (l : list A) :
  (∀ i x, l !! i = Some x → f x = false) → countb f l = 0%nat.
Proof.
  induction l as [|a l IH]; intros Hall; simpl; [done|].
  rewrite (Hall 0%nat a eq_refl). rewrite IH; [done|].
  intros i x Hi. apply (Hall (S i) x Hi).
Qed.

(** C2: in every state of a program that began with [New(N)], N ≥ 1,
    whatever the clients submit and however the goroutines are scheduled,
    at most N tasks are inside [Task()]. *)
Theorem at_most_N_executing N progs sched m :
  1 ≤ N →
  program N progs sched = Some m →
  Z.of_nat (executing m) ≤ N.
Proof.
  intros HN Hp. pose proof (inv_len _ _ (program_inv _ _ _ _ Hp)) as Hlen.
  unfold executing. pose proof (countb_le_length in_task (gos m)). lia.
Qed.

(** C4: once a call of [Shutdown] has returned, the handoff channel is
    closed, the WaitGroup counter is zero, and each of the N goroutines of
    [New] has left its loop and exited: none remains active.  [Wait]
    returns in no other state. *)
Theorem shutdown_waits_for_all N progs sched m t th :
  program N progs sched = Some m →
  thr m !! t = Some th →
  RShutdown ∈ rets th →
  work (pool m) = Closed
  ∧ wg (pool m) = 0
  ∧ length (gos m) = Z.to_nat N
  ∧ (∀ j g, gos m !! j = Some g → g = GExit)
  ∧ countb not_done (gos m) = 0%nat.
Proof.
  intros Hp Ht Hr. pose proof (program_inv _ _ _ _ Hp) as HI.
  destruct (inv_after _ _ HI t th Ht Hr) as [Hw Hall].
  assert (countb not_done (gos m) = 0%nat) as Hz.
  { apply countb_all. intros i x Hi. by rewrite (Hall i x Hi). }
  repeat split; try done.
  - rewrite (inv_wg _ _ HI), Hz. done.
  - apply (inv_len _ _ HI).
Qed.



(** What a step can do to a client blocked at the send of [Run]: nothing,
    a panic on the closed channel, or the rendezvous with a goroutine that
    is ready to receive. *)
Lemma send_step l m m' t th th' w :
  step l m = Some m' →
  thr m !! t = Some th → at_pc th = RunSend w →
  thr m' !! t = Some th' →
  th' = th
  ∨ (at_pc th' = Panicked ∧ work (pool m) = Closed ∧ crashed m' = true)
  ∨ (∃ j, l = LHandoff t j ∧ work (pool m) = Open
          ∧ gos m !! j = Some GRange ∧ gos m' !! j = Some (GTask w)
          ∧ th' = set_pc th (RunRecv w)).
Proof.
  intros Hs Ht Hpc Ht'.
  destruct l; step_cases Hs; cbn in *;
    try (apply list_lookup_insert_Some in Ht' as [(-> & <- & _)|[_ Ht']]);
    simplify_eq; auto; try congruence.
  match goal with
  | Ha : at_pc ?x = RunSend ?a, Hb : at_pc ?x = RunSend ?b |- _ =>
      assert (a = b) as -> by congruence
  end.
  right; right. eexists; repeat split; try done.
  apply list_lookup_insert_eq. by eapply lookup_lt_Some.
Qed.

(** C6: the handoff channel buffers nothing.  In every state of a program
    started with [New(N)]: the send of a [Run] call completes only in a
    step in which a goroutine at its receive takes that very task; while
    the channel is open and every goroutine holds a task, no step moves a
    caller that is blocked at its send; and the tasks accepted and not yet
    answered are exactly those the goroutines hold, at most N of them. *)
Theorem handoff_is_rendezvous N progs sched m :
  program N progs sched = Some m →
  (∀ l m' t th th' w,
     step l m = Some m' →
     thr m !! t = Some th → at_pc th = RunSend w →
     thr m' !! t = Some th' → at_pc th' = RunRecv w →
     ∃ j, l = LHandoff t j ∧ gos m !! j = Some GRange
          ∧ gos m' !! j = Some (GTask w))
  ∧ ((∀ j g, gos m !! j = Some g → busy g = true) →
     work (pool m) = Open →
     ∀ l m' t th w,
       step l m = Some m' →
       thr m !! t = Some th → at_pc th = RunSend w →
       thr m' !! t = Some th)
  ∧ (errChan (pool m) = Open → countb awaiting (thr m) = countb busy (gos m))
  ∧ Z.of_nat (countb busy (gos m)) ≤ N.
Proof.
  intros Hp. pose proof (program_inv _ _ _ _ Hp) as HI.
  split; [|split; [|split]].
  - intros l m' t th th' w Hs Ht Hpc Ht' Hpc'.
    destruct (send_step _ _ _ _ _ _ _ Hs Ht Hpc Ht')
      as [->|[(Hpa & _)|(j & -> & _ & Hg & Hg' & _)]]; [congruence..|eauto].
  - intros Hbusy Hopen l m' t th w Hs Ht Hpc.
    assert (t < length (thr m'))%nat as Hlt.
    { rewrite (step_thr_len _ _ _ Hs). by eapply lookup_lt_Some. }
    destruct (lookup_lt_is_Some_2 _ _ Hlt) as [th' Ht'].
    destruct (send_step _ _ _ _ _ _ _ Hs Ht Hpc Ht')
      as [->|[(_ & Hc & _)|(j & _ & _ & Hg & _)]]; [done|congruence|].
    by specialize (Hbusy _ _ Hg).
  - apply (inv_pair _ _ HI).
  - pose proof (inv_len _ _ HI). pose proof (countb_le_length busy (gos m)).
    assert (0 ≤ N); [|lia].
    unfold program, boot, New in Hp.
    destruct (Z.ltb_spec N 0); [simplify_option_eq|lia].
Qed.

(** C8: once a [Shutdown] has closed the handoff channel, a client that
    enters [Run] is not blocked and gets no error value: the one step it
    can take is the panic of the send on the closed channel.  A client
    that enters [Shutdown] again likewise panics at [close(p.work)]. *)
Theorem misuse_after_shutdown_panics N progs sched m t0 th0 t th :
  program N progs sched = Some m →
  crashed m = false →
  thr m !! t0 = Some th0 →
  past_close th0 = true ∨ RShutdown ∈ rets th0 →
  thr m !! t = Some th →
  (∀ w, at_pc th = RunSend w →
     step (LSendClosed t) m = Some (crash (upd_thr m t (set_pc th Panicked)))
     ∧ ∀ l m' th', step l m = Some m' → thr m' !! t = Some th' →
         th' = th ∨ (at_pc th' = Panicked ∧ crashed m' = true))
  ∧ (at_pc th = ShutCloseWork →
     step (LCloseWork t) m = Some (crash (upd_thr m t (set_pc th Panicked)))
     ∧ ∀ l m' th', step l m = Some m' → thr m' !! t = Some th' →
         th' = th ∨ (at_pc th' = Panicked ∧ crashed m' = true)).
Proof.
  intros Hp Hc Ht0 Hshut Ht. pose proof (program_inv _ _ _ _ Hp) as HI.
  assert (work (pool m) = Closed) as Hw.
  { destruct Hshut as [Hpast|Hret].
    - by apply (inv_shut _ _ HI t0 th0).
    - by apply (inv_after _ _ HI t0 th0). }
  split.
  - intros w Hpc. split.
    + unfold step. rewrite Hc, Ht. cbn. by rewrite Hpc, Hw.
    + intros l m' th' Hs Ht'.
      destruct (send_step _ _ _ _ _ _ _ Hs Ht Hpc Ht')
        as [->|[(? & _ & ?)|(j & _ & Ho & _)]]; [auto|auto|congruence].
  - intros Hpc. split.
    + unfold step. rewrite Hc, Ht. cbn. by rewrite Hpc, Hw.
    + intros l m' th' Hs Ht'.
      destruct l; step_cases Hs; cbn in *;
        try (apply list_lookup_insert_Some in Ht' as [(-> & <- & _)|[_ Ht']]);
        simplify_eq; auto; congruence.
Qed.

Lemma step_no_goroutine l m m' :
  gos m = [] → step l m = Some m' →
  (∀ t th, thr m !! t = Some th →
     awaiting th = false ∧ ∀ w e, RRun w e ∉ rets th) →
  gos m' = [] ∧
  (∀ t th, thr m' !! t = Some th →
     awaiting th = false ∧ ∀ w e, RRun w e ∉ rets th).
Proof.
  intros Hg Hs Hall.
  destruct l; unfold step in Hs; rewrite ?Hg in Hs;
    repeat (case_match; simplify_option_eq; try done); cbn;
    (split; [done|]); try done; intros t' th' Ht';
    apply list_lookup_insert_Some in Ht' as [(-> & <- & _)|[_ Ht']]; eauto;
    match goal with
    | Hth : thr m !! _ = Some ?th |- _ => destruct (Hall _ _ Hth) as [Ha Hr]
    end; unfold awaiting in *; cbn; chan_rw; try done.
  - split; [by destruct c|done].
  - split; [done|]. intros w e [?|Hx%list_elem_of_singleton]%elem_of_app;
      [by eapply Hr|done].
Qed.

(** C10: [New] does not check its argument.  [New(0)] returns a pool with
    both channels open, the counter at zero and no goroutine.  In every
    state of a program on that pool: there is no goroutine, no send of
    [Run] is ever received (no caller gets past its send, no [Run]
    returns), and a client at [p.wg.Wait()] is never blocked.  A lone
    [Shutdown] returns after its own three statements. *)
Theorem New_zero_pool :
  New (W:=W) 0 = Some (mkPool Open 0 Open, [])
  ∧ (∀ progs sched m, program 0 progs sched = Some m →
       gos m = [] ∧ wg (pool m) = 0
       ∧ (∀ t j, step (LHandoff t j) m = None)
       ∧ (∀ t th, thr m !! t = Some th →
            (∀ w, at_pc th ≠ RunRecv w) ∧ (∀ w e, RRun w e ∉ rets th))
       ∧ (∀ t th, thr m !! t = Some th → at_pc th = ShutWait →
            crashed m = false →
            step (LWait t) m = Some (upd_thr m t (returned th RShutdown))))
  ∧ program 0 [[CShutdown]] [LCall 0; LCloseWork 0; LCloseErr 0; LWait 0]
    = Some (mkMachine (mkPool Closed 0 Closed) []
              [mkThread Idle [] [RShutdown]] false).
Proof.
  split; [done|]. split; [|done].
  intros progs sched m Hp. pose proof (program_inv _ _ _ _ Hp) as HI.
  assert (gos m = [] ∧ ∀ t th, thr m !! t = Some th →
            awaiting th = false ∧ ∀ w e, RRun w e ∉ rets th) as [Hg Hall].
  { unfold program in Hp. cbn in Hp.
    set (m0 := mkMachine _ _ _ _) in Hp.
    assert (gos m0 = [] ∧ ∀ t th, thr m0 !! t = Some th →
              awaiting th = false ∧ ∀ w e, RRun w e ∉ rets th) as H0.
    { split; [done|]. intros t th (cs & -> & _)%list_lookup_fmap_Some.
      split; [done|]. cbn. intros w e ?%elem_of_nil. done. }
    clearbody m0. revert m0 Hp H0.
    induction sched as [|l ls IH]; intros m0 Hp [Hg0 H0]; simplify_option_eq.
    - done.
    - eapply IH; [done|]. by eapply step_no_goroutine. }
  assert (wg (pool m) = 0) as Hwg.
  { rewrite (inv_wg _ _ HI), Hg. done. }
  split; [done|]. split; [done|]. split; [|split].
  - intros t j. unfold step. rewrite Hg. destruct (crashed m); [done|].
    cbn. by destruct (thr m !! t).
  - intros t th Ht. destruct (Hall _ _ Ht) as [Ha Hr]. split; [|done].
    intros w Hpc. unfold awaiting in Ha. by rewrite Hpc in Ha.
  - intros t th Ht Hpc Hc. unfold step. rewrite Hc, Ht. cbn.
    by rewrite Hpc, Hwg.
Qed.

Lemma drop_cons_inv {A} (l : list A) k x rest :
  drop k l = x :: rest → l !! k = Some x ∧ rest = drop (S k) l.
Proof.
  intros Hd. destruct (l !! k) as [y|] eqn:Hk.
  - rewrite (drop_S _ _ _ Hk) in Hd. by simplify_eq.
  - apply lookup_ge_None in Hk. by rewrite drop_ge in Hd.
Qed.

Lemma lookup_singleton_inv {A} (x y : A) t : [x] !! t = Some y → t = 0%nat ∧ y = x.
Proof. destruct t as [|[|t]]; cbn; intros; by simplify_eq. Qed.

Lemma step_sinv ws l m m' : SInv ws m → step l m = Some m' → SInv ws m'.
Proof.
  intros HS Hs. destruct l; step_cases Hs;
    destruct HS as (Hw & He & Hc & th & k & Hthr & Hrets & Hph);
    rewrite ?Hthr in *;
    try match goal with
        | Hl : [_] !! _ = Some _ |- _ =>
            apply lookup_singleton_inv in Hl as [-> ->]
        end;
    try congruence;
    destruct Hph as [Hpc Htodo Hall|w' Hpc Hk Htodo Hall
                    |w' j' g' Hpc Hk Htodo Hj' Hg' Hoth];
    try congruence;
    try match goal with
        | Hg : gos m !! _ = Some _ |- _ => by specialize (Hall _ _ Hg)
        end.
  - (* LCall *)
    rewrite Htodo in *.
    destruct (drop k ws) as [|w rest] eqn:Hd; simplify_eq/=.
    apply drop_cons_inv in Hd as [Hk ->].
    repeat (split; [done|]). exists (mkThread (RunSend w) (CRun <$> drop (S k) ws) (rets th)), k.
    cbn. rewrite Hthr. repeat (split; [done|]). by eapply ph_send.
  - (* LHandoff *)
    assert (w' = w) as -> by congruence.
    repeat (split; [done|]). exists (set_pc th (RunRecv w)), k.
    cbn. rewrite Hthr. repeat (split; [done|]).
    eapply (ph_recv _ _ _ _ w j (GTask w)); cbn; auto.
    + apply list_lookup_insert_eq. by eapply lookup_lt_Some.
    + intros j1 g1 Hne Hj1. rewrite list_lookup_insert_ne in Hj1 by done.
      by eapply Hall.
  - (* LTask *)
    destruct (decide (j = j')) as [->|Hne];
      [|by specialize (Hoth _ _ Hne ltac:(eassumption))].
    assert (w' = w) as -> by (destruct Hg'; congruence).
    repeat (split; [done|]). exists th, k. cbn. repeat (split; [done|]).
    eapply (ph_recv _ _ _ _ w j' (GSend w (Task w))); cbn; auto.
    + apply list_lookup_insert_eq. by eapply lookup_lt_Some.
    + intros j1 g1 Hne Hj1. rewrite list_lookup_insert_ne in Hj1 by done.
      by eapply Hoth.
  - (* LDeliver *)
    destruct (decide (j = j')) as [->|Hne];
      [|by specialize (Hoth _ _ Hne ltac:(eassumption))].
    assert (w' = w0) as -> by congruence.
    assert (e = Task w0) as -> by (destruct Hg'; congruence).
    repeat (split; [done|]). exists (returned th (own w0)), (S k).
    cbn. rewrite Hthr. repeat (split; [done|]). split.
    + rewrite (take_S_r _ _ _ Hk), fmap_app, Hrets. done.
    + apply ph_idle; cbn; auto.
      intros j1 g1 Hj1.
      apply list_lookup_insert_Some in Hj1 as [(_ & <- & _)|[Hne Hj1]];
        [done|by eapply Hoth].
  - (* LDone, counter exhausted *)
    destruct (decide (j = j')) as [->|Hne];
      [destruct Hg'; congruence
      |by specialize (Hoth _ _ Hne ltac:(eassumption))].
  - (* LDone *)
    destruct (decide (j = j')) as [->|Hne];
      [destruct Hg'; congruence
      |by specialize (Hoth _ _ Hne ltac:(eassumption))].
Qed.

Lemma boot_sinv N ws m : boot N [CRun <$> ws] = Some m → SInv ws m.
Proof.
  unfold boot, New. intros Hb. destruct (Z.ltb_spec N 0); simplify_option_eq.
  repeat (split; [done|]). eexists _, 0%nat. cbn. repeat (split; [done|]).
  apply ph_idle; cbn; [done|done|].
  intros j g [-> _]%lookup_replicate. done.
Qed.

Lemma program_sinv N ws sched m :
  program N [CRun <$> ws] sched = Some m → SInv ws m.
Proof.
  unfold program. intros Hp.
  destruct (boot N [CRun <$> ws]) as [m0|] eqn:Hb; simplify_option_eq.
  apply boot_sinv in Hb. revert m0 Hb Hp.
  induction sched as [|l ls IH]; intros m0 Hb Hp; simplify_option_eq;
    eauto using step_sinv.
Qed.


Lemma sinv_progress N ws m th :
  1 ≤ N → length (gos m) = Z.to_nat N → SInv ws m →
  thr m = [th] → (length (rets th) < length ws)%nat →
  ∃ l m', step l m = Some m'.
Proof.
  intros HN Hlen (Hw & He & Hc & th' & k & Hthr & Hrets & Hph) Hth Hlt.
  assert (th' = th) as -> by congruence.
  destruct Hph as [Hpc Htodo Hall|w Hpc Hk Htodo Hall
                  |w j g Hpc Hk Htodo Hj Hg Hoth].
  - rewrite Hrets, length_fmap, length_take in Hlt.
    assert (k < length ws)%nat as Hk by lia.
    apply lookup_lt_is_Some_2 in Hk as [w Hk].
    rewrite (drop_S _ _ _ Hk) in Htodo.
    exists (LCall 0). unfold step. rewrite Hc, Hthr. cbn.
    rewrite Hpc, Htodo. cbn. eauto.
  - assert (0 < length (gos m))%nat as H0 by lia.
    apply lookup_lt_is_Some_2 in H0 as [g Hg].
    rewrite (Hall _ _ Hg) in Hg.
    exists (LHandoff 0 0). unfold step. rewrite Hc, Hthr. cbn.
    rewrite Hg. cbn. rewrite Hpc, Hw. eauto.
  - destruct Hg as [->| ->].
    + exists (LTask j). unfold step. rewrite Hc, Hj. cbn. eauto.
    + exists (LDeliver j 0). unfold step. rewrite Hc, Hj, Hthr. cbn.
      rewrite Hpc, He. eauto.
Qed.

Lemma serve_run ws n gs r :
  run (serve (length ws))
    (mkMachine (mkPool Open n Open) (GRange :: gs)
       [mkThread Idle (CRun <$> ws) r] false)
  = Some (mkMachine (mkPool Open n Open) (GRange :: gs)
            [mkThread Idle [] (r ++ (own <$> ws))] false).
Proof.
  revert r. induction ws as [|w ws IH]; intros r; cbn.
  - by rewrite app_nil_r.
  - unfold upd_go, upd_thr, returned; cbn.
    rewrite IH. by rewrite <- app_assoc.
Qed.

(** C9: a program whose single client calls [Run] on the tasks [ws] one
    after the other.  Under every schedule the calls that have returned
    are the first [k] of them, each with exactly the value its own
    [w.Task()] produced; the program never panics.  On a pool of at least
    one goroutine no call is left waiting: as long as a call is
    outstanding some step is enabled, and there is a schedule after which
    every call has returned. *)
Theorem sequential_run_returns_own_outcome N ws :
  (∀ sched m, program N [CRun <$> ws] sched = Some m →
     crashed m = false
     ∧ ∃ th k, thr m = [th] ∧ rets th = (λ w, RRun w (Task w)) <$> take k ws)
  ∧ (1 ≤ N →
     (∀ sched m th, program N [CRun <$> ws] sched = Some m →
        thr m !! 0%nat = Some th → (length (rets th) < length ws)%nat →
        ∃ l m', step l m = Some m')
     ∧ ∃ sched m,
         program N [CRun <$> ws] sched = Some m
         ∧ thr m = [mkThread Idle [] ((λ w, RRun w (Task w)) <$> ws)]).
Proof.
  split; [|intros HN; split].
  - intros sched m Hp.
    destruct (program_sinv _ _ _ _ Hp)
      as (_ & _ & Hc & th & k & Hthr & Hrets & _).
    eauto.
  - intros sched m th Hp Hth Hlt.
    pose proof (program_sinv _ _ _ _ Hp) as HS.
    pose proof (inv_len _ _ (program_inv _ _ _ _ Hp)) as Hlen.
    destruct HS as (Hw & He & Hc & th' & k & Hthr & Hrets & Hph).
    rewrite Hthr in Hth. simplify_eq/=.
    eapply (sinv_progress N ws m th); try done.
    repeat (split; [done|]). eauto.
  - destruct (Z.to_nat N) as [|n] eqn:Hn; [lia|].
    exists (serve (length ws)). eexists (mkMachine _ _ _ _). split; [|done].
    unfold program, boot, New. destruct (Z.ltb_spec N 0); [lia|]. cbn.
    rewrite Hn. cbn. apply serve_run.
Qed.

(** ** Programs that only submit work *)

Lemma total_insert {A} (f : A → nat) (l : list A) i x y :
  l !! i = Some x →
  (total f (<[i:=y]> l) + f x = total f l + f y)%nat.
Proof.
  revert i. induction l as [|a l IH]; intros [|i] Hi; simplify_eq/=.
  - lia.
  - specialize (IH _ Hi). lia.
Qed.

Lemma total_replicate {A} (f : A → nat) n x :
  total f (replicate n x) = (n * f x)%nat.
Proof. induction n as [|n IH]; simpl; [done|]. rewrite IH. lia. Qed.

Lemma total_fmap {A B} (f : B → nat) (g : A → B) (l : list A) :
  total f (g <$> l) = total (f ∘ g) l.
Proof. induction l as [|a l IH]; csimpl; [done|]. by rewrite IH. Qed.

Lemma countb_app {A} (f : A → bool) (l1 l2 : list A) :
  countb f (l1 ++ l2) = (countb f l1 + countb f l2)%nat.
Proof. induction l1 as [|a l1 IH]; simpl; [done|]. rewrite IH. lia. Qed.

Ltac total_insert f :=
  repeat match goal with
  | Hl : ?l !! ?i = Some ?x |- context [total f (<[?i:=?y]> ?l)] =>
      let E := fresh "E" in
      pose proof (total_insert f l i x y Hl) as E;
      generalize dependent (total f (<[i:=y]> l)); intros
  end.

Lemma step_calm l m m' : Calm m → step l m = Some m' → Calm m'.
Proof.
  intros HC Hs. destruct l; step_cases Hs;
    destruct HC as [Hw He Hc Hthr Hgos];
    try congruence;
    try match goal with
        | Hth : thr _ !! _ = Some ?th, Hp : at_pc ?th = _ |- _ =>
            destruct (Hthr _ _ Hth) as [Hin _]; unfold in_run in Hin;
            rewrite Hp in Hin; done
        end;
    try match goal with
        | Hg : gos _ !! _ = Some _ |- _ => by specialize (Hgos _ _ Hg)
        end.
  all: split; cbn; try done.
  all: try (intros t' th' Ht';
            apply list_lookup_insert_Some in Ht' as [(-> & <- & _)|[_ Ht']];
            [try done|by eauto]).
  all: match goal with
       | Hth : thr _ !! _ = Some ?th |- _ =>
           destruct (Hthr _ _ Hth) as [Hin Htd]
       end; unfold in_run in *; cbn; chan_rw; cbn in *.
  - match goal with Ht : todo _ = _ :: _ |- _ => rewrite Ht in Htd end.
    cbn in Htd. apply andb_prop in Htd as [Hc1 Htd]. by destruct c.
  - done.
  - done.
Qed.

Lemma forallb_lookup {A} (f : A → bool) (l : list A) i x :
  forallb f l = true → l !! i = Some x → f x = true.
Proof.
  revert i. induction l as [|a l IH]; intros [|i] Hf Hi; simplify_eq/=;
    apply andb_prop in Hf as [Ha Hl]; eauto.
Qed.

Lemma run_calm sched m m' : Calm m → run sched m = Some m' → Calm m'.
Proof.
  revert m. induction sched as [|l ls IH]; intros m HC Hr; simplify_option_eq;
    eauto using step_calm.
Qed.

Lemma boot_calm N progs m :
  run_only progs = true → boot N progs = Some m → Calm m.
Proof.
  unfold boot, New. intros Hro Hb. destruct (Z.ltb_spec N 0); simplify_option_eq.
  split; cbn; try done.
  - intros t th (cs & -> & Hcs)%list_lookup_fmap_Some. split; [done|]. cbn.
    by apply (forallb_lookup _ _ _ _ Hro Hcs).
  - intros j g [-> _]%lookup_replicate. done.
Qed.

Lemma program_calm N progs sched m :
  run_only progs = true → program N progs sched = Some m → Calm m.
Proof.
  unfold program. intros Hro Hp.
  destruct (boot N progs) as [m0|] eqn:Hb; simplify_option_eq.
  eauto using run_calm, boot_calm.
Qed.

Lemma step_left l m m' :
  Calm m → step l m = Some m' → (steps_left m' + 1 = steps_left m)%nat.
Proof.
  intros HC Hs. destruct l; step_cases Hs;
    destruct HC as [Hw He Hc Hthr Hgos];
    try congruence;
    try match goal with
        | Hth : thr _ !! _ = Some ?th, Hp : at_pc ?th = _ |- _ =>
            destruct (Hthr _ _ Hth) as [Hin _]; unfold in_run in Hin;
            rewrite Hp in Hin; done
        end;
    try match goal with
        | Hg : gos _ !! _ = Some _ |- _ => by specialize (Hgos _ _ Hg)
        end.
  all: unfold steps_left; cbn;
    total_insert (@thr_left W); total_insert (@go_left W);
    unfold thr_left in *; cbn in *; chan_rw;
    repeat match goal with Ht : todo _ = _ |- _ => rewrite Ht in * end;
    cbn in *; try lia.
  match goal with
  | Hth : thr _ !! _ = Some ?th |- _ =>
      destruct (Hthr _ _ Hth) as [_ Htd]
  end.
  match goal with Ht : todo _ = _ :: _ |- _ => rewrite Ht in Htd end.
  cbn in Htd. apply andb_prop in Htd as [Hc1 _]. destruct c; [|done].
  cbn in *. lia.
Qed.

Lemma run_left sched m m' :
  Calm m → run sched m = Some m' →
  (steps_left m' + length sched = steps_left m)%nat.
Proof.
  revert m. induction sched as [|l ls IH]; intros m HC Hr; simplify_option_eq.
  - lia.
  - match goal with
    | Hs : step _ _ = Some ?m1 |- _ =>
        pose proof (step_left _ _ _ HC Hs);
        pose proof (IH m1 (step_calm _ _ _ HC Hs) Hr)
    end. cbn. lia.
Qed.

Lemma boot_left N progs m :
  boot N progs = Some m → steps_left m = (4 * calls progs)%nat.
Proof.
  unfold boot, New. intros Hb. destruct (Z.ltb_spec N 0); simplify_option_eq.
  unfold steps_left, calls. cbn.
  rewrite total_replicate, total_fmap. cbn.
  induction progs as [|cs progs IH]; cbn in *; lia.
Qed.

Lemma countb_ex {A} (f : A → bool) (l : list A) :
  (0 < countb f l)%nat → ∃ i x, l !! i = Some x ∧ f x = true.
Proof.
  induction l as [|a l IH]; simpl; [lia|]. intros Hc.
  destruct (f a) eqn:Ha.
  - by exists 0%nat, a.
  - destruct (IH ltac:(lia)) as (i & x & Hi & Hx). by exists (S i), x.
Qed.

Lemma total_zero {A} (f : A → nat) (l : list A) :
  total f l = 0%nat ↔ ∀ i x, l !! i = Some x → f x = 0%nat.
Proof.
  induction l as [|a l IH]; simpl.
  - split; [by intros _ [|i] x|done].
  - split.
    + intros Hz [|i] x Hi; simplify_eq/=; [lia|].
      apply (proj1 IH ltac:(lia) i x Hi).
    + intros Hall. rewrite (Hall 0%nat a eq_refl).
      rewrite (proj2 IH); [done|]. intros i x Hi. apply (Hall (S i) x Hi).
Qed.

Lemma range_or_busy (gs : list (goroutine W)) :
  (∀ j g, gs !! j = Some g → in_loop g = true) →
  (∃ j, gs !! j = Some GRange) ∨ (∀ j g, gs !! j = Some g → busy g = true).
Proof.
  induction gs as [|g gs IH]; intros Hall.
  - right. by intros [|j] g.
  - destruct g; try (by specialize (Hall 0%nat _ eq_refl)).
    + left. by exists 0%nat.
    + destruct (IH (λ j g, Hall (S j) g)) as [[j Hj]|Hb].
      * left. by exists (S j).
      * right. intros [|j] g Hj; simplify_eq/=; eauto.
    + destruct (IH (λ j g, Hall (S j) g)) as [[j Hj]|Hb].
      * left. by exists (S j).
      * right. intros [|j] g Hj; simplify_eq/=; eauto.
Qed.

(** A goroutine that holds a task can move, given a caller at its receive. *)
Lemma busy_can_move m j g t th w :
  Calm m → gos m !! j = Some g → busy g = true →
  thr m !! t = Some th → at_pc th = RunRecv w →
  ∃ l m', step l m = Some m'.
Proof.
  intros [Hw He Hc _ _] Hj Hb Ht Hpc. destruct g; try done.
  - exists (LTask j). unfold step. rewrite Hc, Hj. cbn. eauto.
  - exists (LDeliver j t). unfold step. rewrite Hc, Hj, Ht. cbn.
    rewrite Hpc, He. eauto.
Qed.

Lemma calm_progress N m t th :
  1 ≤ N → Inv N m → Calm m →
  thr m !! t = Some th → finished th = false →
  ∃ l m', step l m = Some m'.
Proof.
  intros HN HI HC Ht Hfin.
  pose proof HC as [Hw He Hc Hthr Hgos].
  pose proof (inv_pair _ _ HI He) as Hpair.
  destruct (Hthr _ _ Ht) as [Hin _]. unfold in_run, finished in *.
  destruct (at_pc th) as [|w|w| | | |] eqn:Hpc; try done.
  - destruct (todo th) as [|c rest] eqn:Htd; [done|].
    exists (LCall t). unfold step. rewrite Hc, Ht. cbn.
    rewrite Hpc, Htd. eauto.
  - destruct (range_or_busy _ Hgos) as [[j Hj]|Hb].
    + exists (LHandoff t j). unfold step. rewrite Hc, Ht. cbn.
      rewrite Hj. cbn. rewrite Hpc, Hw. eauto.
    + assert (0 < length (gos m))%nat as H0
        by (rewrite (inv_len _ _ HI); lia).
      apply lookup_lt_is_Some_2 in H0 as [g Hg].
      pose proof (countb_pos busy _ _ _ Hg (Hb _ _ Hg)) as Hpos.
      rewrite <- Hpair in Hpos.
      destruct (countb_ex _ _ Hpos) as (t' & th' & Ht' & Ha).
      unfold awaiting in Ha.
      destruct (at_pc th') as [| |w'| | | |] eqn:Hpc'; try done.
      eapply (busy_can_move m 0%nat g t' th' w'); eauto.
  - assert (0 < countb awaiting (thr m))%nat as Hpos.
    { apply (countb_pos awaiting _ t th Ht). unfold awaiting. by rewrite Hpc. }
    rewrite Hpair in Hpos.
    destruct (countb_ex _ _ Hpos) as (j & g & Hj & Hb).
    eapply (busy_can_move m j g t th w); eauto.
Qed.



Lemma finished_left m :
  Calm m → countb awaiting (thr m) = countb busy (gos m) →
  all_finished m ↔ steps_left m = 0%nat.
Proof.
  intros [Hw He Hc Hthr Hgos] Hpair. unfold steps_left. split.
  - intros Hfin.
    assert (total thr_left (thr m) = 0%nat) as ->.
    { apply total_zero. intros t th Ht. specialize (Hfin _ _ Ht).
      unfold finished, thr_left in *.
      destruct (at_pc th), (todo th); done. }
    assert (countb awaiting (thr m) = 0%nat) as Hz.
    { apply countb_all. intros t th Ht. specialize (Hfin _ _ Ht).
      unfold finished, awaiting in *. by destruct (at_pc th). }
    rewrite Hz in Hpair. symmetry in Hpair.
    apply total_zero. intros j g Hj.
    pose proof (countb_zero _ _ Hpair j g Hj). by destruct g.
  - intros Hz.
    assert (total thr_left (thr m) = 0%nat) as Ht0 by lia.
    assert (total go_left (gos m) = 0%nat) as Hg0 by lia.
    assert (countb busy (gos m) = 0%nat) as Hb.
    { apply countb_all. intros j g Hj.
      pose proof (proj1 (total_zero _ _) Hg0 j g Hj). by destruct g. }
    rewrite Hb in Hpair.
    intros t th Ht.
    pose proof (proj1 (total_zero _ _) Ht0 t th Ht) as Hl.
    pose proof (countb_zero _ _ Hpair t th Ht) as Ha.
    destruct (Hthr _ _ Ht) as [Hin _].
    unfold finished, thr_left, awaiting, in_run in *.
    destruct (at_pc th), (todo th); simpl in *; try done; lia.
Qed.

Lemma program_left N progs sched m :
  run_only progs = true → program N progs sched = Some m →
  (steps_left m + length sched = 4 * calls progs)%nat.
Proof.
  intros Hro Hp. unfold program in Hp.
  destruct (boot N progs) as [m0|] eqn:Hb; simplify_option_eq.
  pose proof (boot_left _ _ _ Hb) as Hb4.
  pose proof (run_left _ _ _ (boot_calm _ _ _ Hro Hb) Hp). lia.
Qed.

(** X2: in a program that only submits work, every [Run] call accounts
    for exactly four steps (entering the call, the handoff, the return of
    [Task], the delivery of an outcome).  So no schedule is longer than
    four times the number of calls, and the calls have all returned
    exactly when that many steps have been taken. *)
Theorem run_only_step_count N progs sched m :
  run_only progs = true →
  program N progs sched = Some m →
  (length sched ≤ 4 * calls progs)%nat
  ∧ (all_finished m ↔ length sched = (4 * calls progs)%nat).
Proof.
  intros Hro Hp.
  pose proof (program_calm _ _ _ _ Hro Hp) as HC.
  pose proof (inv_pair _ _ (program_inv _ _ _ _ Hp) (calm_err _ HC)) as Hpair.
  pose proof (program_left _ _ _ _ Hro Hp) as Hl.
  split; [lia|]. rewrite (finished_left m HC Hpair). lia.
Qed.


Lemma step_conserve (f : error → bool) l m m' :
  Calm m → step l m = Some m' →
  (returned_outcomes f m' + pending_outcomes f m'
   = returned_outcomes f m + pending_outcomes f m)%nat.
Proof.
  intros HC Hs. destruct l; step_cases Hs;
    destruct HC as [Hw He Hc Hthr Hgos];
    try congruence;
    try match goal with
        | Hth : thr _ !! _ = Some ?th, Hp : at_pc ?th = _ |- _ =>
            destruct (Hthr _ _ Hth) as [Hin _]; unfold in_run in Hin;
            rewrite Hp in Hin; done
        end;
    try match goal with
        | Hg : gos _ !! _ = Some _ |- _ => by specialize (Hgos _ _ Hg)
        end.
  all: unfold returned_outcomes, pending_outcomes; cbn;
    total_insert (@thr_returned W f); total_insert (@thr_pending W _ f);
    total_insert (@go_pending W _ f);
    unfold thr_returned, thr_pending in *; cbn in *; chan_rw;
    repeat match goal with Ht : todo _ = _ |- _ => rewrite Ht in * end;
    rewrite ?countb_app in *; unfold b2n in *; cbn in *; try lia.
  match goal with
  | Hth : thr _ !! _ = Some ?th |- _ =>
      destruct (Hthr _ _ Hth) as [_ Htd]
  end.
  match goal with Ht : todo _ = _ :: _ |- _ => rewrite Ht in Htd end.
  cbn in Htd. apply andb_prop in Htd as [Hc1 _]. destruct c; [|done].
  cbn in *. lia.
Qed.

Lemma run_conserve (f : error → bool) sched m m' :
  Calm m → run sched m = Some m' →
  (returned_outcomes f m' + pending_outcomes f m'
   = returned_outcomes f m + pending_outcomes f m)%nat.
Proof.
  revert m. induction sched as [|l ls IH]; intros m HC Hr; simplify_option_eq.
  - done.
  - match goal with
    | Hs : step _ _ = Some ?m1 |- _ =>
        rewrite (IH m1 (step_calm _ _ _ HC Hs) Hr);
        apply (step_conserve f _ _ _ HC Hs)
    end.
Qed.

Lemma boot_conserve (f : error → bool) N progs m :
  boot N progs = Some m →
  (returned_outcomes f m + pending_outcomes f m
   = submitted_outcomes f progs)%nat.
Proof.
  unfold boot, New. intros Hb. destruct (Z.ltb_spec N 0); simplify_option_eq.
  unfold returned_outcomes, pending_outcomes, submitted_outcomes. cbn.
  rewrite total_replicate, !total_fmap. cbn.
  induction progs as [|cs progs IH]; cbn in *; [done|].
  unfold thr_returned, thr_pending in *. cbn in *. lia.
Qed.

Lemma program_conserve (f : error → bool) N progs sched m :
  run_only progs = true → program N progs sched = Some m →
  (returned_outcomes f m + pending_outcomes f m
   = submitted_outcomes f progs)%nat.
Proof.
  intros Hro Hp. unfold program in Hp.
  destruct (boot N progs) as [m0|] eqn:Hb; simplify_option_eq.
  rewrite (run_conserve f _ _ _ (boot_calm _ _ _ Hro Hb) Hp).
  by eapply boot_conserve.
Qed.

Lemma program_conserve_finished (f : error → bool) N progs sched m :
  run_only progs = true → program N progs sched = Some m →
  all_finished m → returned_outcomes f m = submitted_outcomes f progs.
Proof.
  intros Hro Hp Hfin.
  pose proof (program_calm _ _ _ _ Hro Hp) as HC.
  pose proof (inv_pair _ _ (program_inv _ _ _ _ Hp) (calm_err _ HC)) as Hpair.
  pose proof (program_conserve f _ _ _ _ Hro Hp) as Heq.
  assert (pending_outcomes f m = 0%nat) as Hz; [|lia].
  unfold pending_outcomes.
  assert (total (thr_pending f) (thr m) = 0%nat) as ->.
  { apply total_zero. intros t th Ht. specialize (Hfin _ _ Ht).
    unfold finished, thr_pending in *.
    destruct (at_pc th), (todo th); done. }
  assert (countb awaiting (thr m) = 0%nat) as Ha.
  { apply countb_all. intros t th Ht. specialize (Hfin _ _ Ht).
    unfold finished, awaiting in *. by destruct (at_pc th). }
  rewrite Ha in Hpair. symmetry in Hpair.
  apply total_zero. intros j g Hj.
  pose proof (countb_zero _ _ Hpair j g Hj). by destruct g.
Qed.

(** X4: in a program that only submits work no outcome is lost or
    duplicated.  For every property [f] of outcomes, the outcomes with [f]
    that [Run] calls have returned, plus those still owed (by tasks not yet
    handed over and by tasks the goroutines hold), are as many as the
    submitted tasks whose [Task] yields an outcome with [f]; once every
    call has returned, the returned outcomes are, counted with
    multiplicity, exactly the outcomes of the submitted tasks. *)
Theorem run_only_outcomes_conserved (f : error → bool) N progs sched m :
  run_only progs = true →
  program N progs sched = Some m →
  (returned_outcomes f m + pending_outcomes f m
   = submitted_outcomes f progs)%nat
  ∧ (all_finished m → returned_outcomes f m = submitted_outcomes f progs).
Proof.
  intros Hro Hp. split; [by apply (program_conserve f N progs sched)|].
  by apply (program_conserve_finished f N progs sched).
Qed.

Lemma submitted_elem (progs : list (list (call W))) t cs w :
  progs !! t = Some cs → CRun w ∈ cs → w ∈ submitted progs.
Proof.
  intros Ht Hw. unfold submitted. apply list_elem_of_bind.
  exists (CRun w). split; [by apply list_elem_of_singleton|].
  apply list_elem_of_join. exists cs. split; [done|].
  by eapply list_elem_of_lookup_2.
Qed.

Lemma step_traced S l m m' : Traced S m → step l m = Some m' → Traced S m'.
Proof.
  intros [Hsend Htodo Hrets Htask Hout] Hs. split.
  - destruct l; step_cases Hs; cbn in *; try done;
      intros t' th' w' Ht' Hpc';
      try (apply list_lookup_insert_Some in Ht' as [(-> & <- & _)|[_ Ht']]);
      cbn in *; eauto;
      try (destruct Hpc'; congruence).
    + destruct c; cbn in *; [|destruct Hpc'; congruence].
      assert (w' = w) as -> by (destruct Hpc'; congruence).
      eapply Htodo; [done|].
      match goal with Ht : todo _ = _ |- _ => rewrite Ht end. left.
    + assert (w' = w) as -> by (destruct Hpc'; congruence). eauto.
  - destruct l; step_cases Hs; cbn in *; try done;
      intros t' th' w' Ht' Hin';
      try (apply list_lookup_insert_Some in Ht' as [(-> & <- & _)|[_ Ht']]);
      cbn in *; eauto.
    eapply Htodo; [done|].
    match goal with Ht : todo _ = _ |- _ => rewrite Ht end. by right.
  - destruct l; step_cases Hs; cbn in *; try done;
      intros t' th' w' e' Ht' Hin';
      try (apply list_lookup_insert_Some in Ht' as [(-> & <- & _)|[_ Ht']]);
      cbn in *; eauto;
      apply elem_of_app in Hin' as [Hin'|Hin'%list_elem_of_singleton];
      eauto; simplify_eq.
    + split; [eauto|].
      match goal with
      | Hg : gos _ !! _ = Some (GSend _ _) |- _ =>
          destruct (Hout _ _ _ Hg) as [Hw1 ->]
      end. right. eauto.
    + split; [eauto|]. by left.
  - destruct l; step_cases Hs; cbn in *; try done;
      intros j' w' Hj';
      try (apply list_lookup_insert_Some in Hj' as [(-> & ? & _)|[_ Hj']]);
      simplify_eq; eauto.
  - destruct l; step_cases Hs; cbn in *; try done;
      intros j' w' e' Hj';
      try (apply list_lookup_insert_Some in Hj' as [(-> & ? & _)|[_ Hj']]);
      simplify_eq; eauto.
Qed.

Lemma boot_traced N progs m :
  boot N progs = Some m → Traced (submitted progs) m.
Proof.
  unfold boot, New. intros Hb. destruct (Z.ltb_spec N 0); simplify_option_eq.
  split; cbn.
  - intros t th w (cs & -> & _)%list_lookup_fmap_Some [?|?]; done.
  - intros t th w (cs & -> & Hcs)%list_lookup_fmap_Some Hin. cbn in Hin.
    by eapply submitted_elem.
  - intros t th w e (cs & -> & _)%list_lookup_fmap_Some Hin.
    by apply elem_of_nil in Hin.
  - intros j w [? _]%lookup_replicate. done.
  - intros j w e [? _]%lookup_replicate. done.
Qed.

Lemma program_traced N progs sched m :
  program N progs sched = Some m → Traced (submitted progs) m.
Proof.
  unfold program. intros Hp.
  destruct (boot N progs) as [m0|] eqn:Hb; simplify_option_eq.
  apply boot_traced in Hb. revert m0 Hb Hp.
  induction sched as [|l ls IH]; intros m0 Hb Hp; simplify_option_eq;
    eauto using step_traced.
Qed.

(** X5: [Run] never makes up or alters a failure.  In any program, with
    or without [Shutdown], a non-nil error returned by a [Run] call is the
    value that [Task] returned for one of the tasks the clients submit,
    and the task the call is recorded for is one of them too. *)
Theorem run_returns_only_task_outcomes N progs sched m t th w s :
  program N progs sched = Some m →
  thr m !! t = Some th →
  RRun w (Some s) ∈ rets th →
  w ∈ submitted progs
  ∧ ∃ w', w' ∈ submitted progs ∧ Task w' = Some s.
Proof.
  intros Hp Ht Hin.
  destruct (tr_rets _ _ (program_traced _ _ _ _ Hp) t th w _ Ht Hin)
    as [Hw [?|(w' & Hw' & He)]]; [done|]. eauto.
Qed.

Lemma step_monotone l m m' :
  step l m = Some m' →
  (work (pool m) = Closed → work (pool m') = Closed)
  ∧ (errChan (pool m) = Closed → errChan (pool m') = Closed)
  ∧ wg (pool m') ≤ wg (pool m)
  ∧ (∀ t th, thr m !! t = Some th →
       ∃ th', thr m' !! t = Some th'
         ∧ rets th `prefix_of` rets th' ∧ todo th' `suffix_of` todo th).
Proof.
  intros Hs.
  assert (∀ t th, thr m !! t = Some th → ∃ th', thr m' !! t = Some th') as Hex.
  { intros t th Ht. apply lookup_lt_is_Some_2.
    rewrite (step_thr_len _ _ _ Hs). by eapply lookup_lt_Some. }
  split; [|split; [|split]].
  - destruct l; step_cases Hs; cbn in *; chan_rw; done.
  - destruct l; step_cases Hs; cbn in *; chan_rw; done.
  - destruct l; step_cases Hs; cbn in *; lia.
  - intros t' th' Ht'. destruct (Hex _ _ Ht') as [th2 Ht2].
    exists th2. split; [done|].
    destruct l; step_cases Hs; cbn in *;
      try (apply list_lookup_insert_Some in Ht2 as [(-> & <- & _)|[_ Ht2]]);
      simplify_eq; cbn; try done;
      try (split; [by apply prefix_app_r|done]).
    split; [done|].
    match goal with Ht : todo _ = _ |- _ => rewrite Ht end.
    by apply suffix_cons_r.
Qed.

(** X6: what no execution of the pool ever undoes.  Along any schedule
    from any state a closed channel stays closed, the WaitGroup counter
    never goes up, and for every client the results already returned stay
    as they are (later results are appended) while the calls still to make
    are only ever taken from the front. *)
Theorem run_is_monotone sched m m' :
  run sched m = Some m' →
  (work (pool m) = Closed → work (pool m') = Closed)
  ∧ (errChan (pool m) = Closed → errChan (pool m') = Closed)
  ∧ wg (pool m') ≤ wg (pool m)
  ∧ (∀ t th, thr m !! t = Some th →
       ∃ th', thr m' !! t = Some th'
         ∧ rets th `prefix_of` rets th' ∧ todo th' `suffix_of` todo th).
Proof.
  revert m. induction sched as [|l ls IH]; intros m Hr; simplify_option_eq.
  - repeat split; try done; try lia. intros t th Ht. by exists th.
  - match goal with
    | Hs : step _ _ = Some ?m1 |- _ =>
        destruct (step_monotone _ _ _ Hs) as (Hw1 & He1 & Hg1 & Ht1);
        destruct (IH m1 Hr) as (Hw2 & He2 & Hg2 & Ht2)
    end.
    split; [auto|]. split; [auto|]. split; [lia|].
    intros t th Ht. destruct (Ht1 _ _ Ht) as (th1 & Hth1 & Hp1 & Hs1).
    destruct (Ht2 _ _ Hth1) as (th2 & Hth2 & Hp2 & Hs2).
    exists th2. split; [done|]. split; by etrans.
Qed.



(** ** Clients follow their programs *)

Lemma step_history l m m' t th th' :
  step l m = Some m' →
  thr m !! t = Some th → thr m' !! t = Some th' →
  at_pc th' ≠ Panicked →
  history th' = history th ∧ at_pc th ≠ Panicked.
Proof.
  intros Hs Ht Ht' Hnp.
  destruct l; step_cases Hs; cbn in *;
    try (apply list_lookup_insert_Some in Ht' as [(-> & <- & _)|[_ Ht']]);
    simplify_eq; cbn in *; try done;
    unfold history, current; cbn; chan_rw;
    repeat match goal with Ht : todo _ = _ |- _ => rewrite Ht in * end;
    rewrite ?fmap_app, <- ?app_assoc; cbn; try done.
  all: try (split; [|congruence]).
  all: try (split; [done|]; intros Hp; apply Hnp;
            match goal with
            | Ha : thr ?m !! ?t = Some ?a, Hb : thr ?m !! ?t = Some ?b |- _ =>
                rewrite Ha in Hb; by simplify_eq
            end).
  by destruct c.
Qed.

Lemma step_panicked_stays l m m' t th :
  step l m = Some m' → thr m !! t = Some th → at_pc th = Panicked →
  thr m' !! t = Some th.
Proof.
  intros Hs Ht Hp.
  destruct l; step_cases Hs; cbn in *; try done;
    match goal with
    | |- <[?i:=_]> _ !! _ = _ =>
        destruct (decide (i = t)) as [->|Hne];
        [simplify_eq; congruence | by rewrite list_lookup_insert_ne]
    end.
Qed.

Lemma run_panicked_stays sched m m' t th :
  run sched m = Some m' → thr m !! t = Some th → at_pc th = Panicked →
  thr m' !! t = Some th.
Proof.
  revert m. induction sched as [|l ls IH]; intros m Hr Ht Hp; cbn in Hr.
  - by simplify_eq.
  - destruct (step l m) as [m1|] eqn:Hs; [cbn in Hr|done].
    eauto using step_panicked_stays.
Qed.

Lemma run_history sched m m' t th th' :
  run sched m = Some m' →
  thr m !! t = Some th → thr m' !! t = Some th' →
  at_pc th' ≠ Panicked →
  history th' = history th.
Proof.
  revert m th. induction sched as [|l ls IH]; intros m th Hr Ht Ht' Hnp;
    cbn in Hr.
  - by simplify_eq.
  - destruct (step l m) as [m1|] eqn:Hs; [cbn in Hr|done].
    assert (t < length (thr m1))%nat as Hlt.
    { rewrite (step_thr_len _ _ _ Hs). by eapply lookup_lt_Some. }
    apply lookup_lt_is_Some_2 in Hlt as [th1 Ht1].
    assert (at_pc th1 ≠ Panicked) as Hp1.
    { intros Hp. pose proof (run_panicked_stays _ _ _ _ _ Hr Ht1 Hp) as Hst.
      rewrite Hst in Ht'. by simplify_eq. }
    rewrite (IH m1 th1 Hr Ht1 Ht' Hnp).
    by destruct (step_history _ _ _ _ _ _ Hs Ht Ht1 Hp1).
Qed.

(** X8: every client performs the calls of its program in order, and a
    call returns once.  In any state of any program, for a client that has
    not panicked, the calls whose results are recorded, followed by the
    call in progress and the calls still to make, are the client's
    program; in particular the i-th result of a client belongs to its i-th
    call. *)
Theorem calls_in_program_order N progs sched m t cs th :
  program N progs sched = Some m →
  progs !! t = Some cs →
  thr m !! t = Some th →
  at_pc th ≠ Panicked →
  (call_of <$> rets th) ++ current th ++ todo th = cs
  ∧ (length (rets th) ≤ length cs)%nat.
Proof.
  intros Hp Hcs Ht Hnp. unfold program in Hp.
  destruct (boot N progs) as [m0|] eqn:Hb; simplify_option_eq.
  assert (thr m0 !! t = Some (mkThread Idle cs [])) as Ht0.
  { unfold boot, New in Hb. destruct (Z.ltb_spec N 0); simplify_option_eq.
    cbn. by rewrite list_lookup_fmap, Hcs. }
  pose proof (run_history _ _ _ _ _ _ Hp Ht0 Ht Hnp) as Hh.
  unfold history in Hh. cbn in Hh. split; [done|].
  rewrite <- Hh, !length_app, length_fmap. lia.
Qed.


(** ** The driver *)

Lemma total_app {A} (f : A → nat) (l1 l2 : list A) :
  total f (l1 ++ l2) = (total f l1 + total f l2)%nat.
Proof. induction l1 as [|a l1 IH]; simpl; [done|]. rewrite IH. lia. Qed.

Lemma closing_main_moves K m th th' p :
  Closing K m → thr m !! K = Some th →
  shutting p th' → wg p = wg (pool m) →
  (work p = Open → work (pool m) = Open) →
  (shut_left th' + 1 = shut_left th)%nat →
  (∀ f, thr_returned f th' = thr_returned f th) →
  let m' := mkMachine p (gos m) (<[K:=th']> (thr m)) (crashed m) in
  Closing K m'
  ∧ (closing_left m' + 1 = closing_left m)%nat
  ∧ ∀ f, returned_outcomes f m' = returned_outcomes f m.
Proof.
  intros [Hc Hwg Hgos Hopen Hcl _] HtK Hsh Hwg' Hw' Hleft Hret m'.
  split; [split; cbn|split].
  - done.
  - by rewrite Hwg'.
  - done.
  - intros Ho. apply Hopen. auto.
  - intros t x Ht Hne. rewrite list_lookup_insert_ne in Ht by done. eauto.
  - exists th'. split; [|done].
    apply list_lookup_insert_eq. by eapply lookup_lt_Some.
  - unfold closing_left, m'. cbn.
    pose proof (total_insert shut_left _ _ _ th' HtK). lia.
  - intros f. unfold returned_outcomes, m'. cbn.
    pose proof (total_insert (thr_returned f) _ _ _ th' HtK).
    rewrite (Hret f) in *. lia.
Qed.

Lemma closing_go_moves K m j g g' p :
  Closing K m → gos m !! j = Some g →
  g' = GLeft ∨ g' = GExit →
  work (pool m) = Closed → work p = Closed → errChan p = errChan (pool m) →
  (wg p + Z.of_nat (b2n (not_done g)) = wg (pool m) + Z.of_nat (b2n (not_done g'))) →
  (0 < wg (pool m)) →
  (exit_left g' + 1 = exit_left g)%nat →
  let m' := mkMachine p (<[j:=g']> (gos m)) (thr m) (crashed m) in
  Closing K m'
  ∧ (closing_left m' + 1 = closing_left m)%nat
  ∧ ∀ f, returned_outcomes f m' = returned_outcomes f m.
Proof.
  intros [Hc Hwg Hgos Hopen Hcl (th & HtK & Hsh)] Hj Hg' Hw Hwp Hep Hwgp Hpos
    Hleft m'.
  split; [split; cbn|split].
  - done.
  - pose proof (countb_insert not_done _ _ _ g' Hj). lia.
  - intros j' x [(-> & <- & _)|[_ Hj']]%list_lookup_insert_Some; [|eauto].
    destruct Hg' as [->| ->]; auto.
  - congruence.
  - done.
  - exists th. split; [done|].
    destruct Hsh as [Hpc Htd Hr Hwo Heo|Hpc Htd Hr Hwo Heo|Hpc Htd Hr Hwo Heo
                    |Hpc Htd Hr Hwo Heo|Hpc Htd Hr Hwo Heo Hz];
      try congruence.
    + apply sh_err; congruence.
    + apply sh_wait; congruence.
    + lia.
  - unfold closing_left, m'. cbn.
    pose proof (total_insert exit_left _ _ _ g' Hj). lia.
  - done.
Qed.

Lemma step_closing K l m m' :
  Closing K m → step l m = Some m' →
  Closing K m'
  ∧ (closing_left m' + 1 = closing_left m)%nat
  ∧ ∀ f, returned_outcomes f m' = returned_outcomes f m.
Proof.
  intros HC Hs. pose proof HC as [Hc Hwg Hgos Hopen Hcl (th & HtK & Hsh)].
  destruct l; step_cases Hs;
    try match goal with
        | Hg : gos _ !! _ = Some _ |- _ =>
            by destruct (Hgos _ _ Hg) as [?|[?|?]]
        end;
    try match goal with
        | Hth : thr _ !! ?t = Some ?th0, Hp : at_pc ?th0 = _ |- _ =>
            destruct (decide (t = K)) as [->|Hne];
            [rewrite HtK in Hth; simplify_eq
            |specialize (Hcl _ _ Hth Hne); unfold finished in Hcl;
             rewrite Hp in Hcl;
             repeat match goal with
                    | Ht : todo _ = _ |- _ => rewrite Ht in Hcl
                    end; done]
        end;
    try (destruct Hsh; congruence).
  - (* main enters Shutdown *)
    destruct Hsh as [Hpc Htd Hr Hwo Heo| | | |]; try congruence.
    assert (c = CShutdown ∧ l = []) as [-> ->] by (split; congruence).
    unfold upd_thr.
    eapply closing_main_moves; [exact HC|eassumption|..]; try done.
    + by apply sh_work.
    + unfold shut_left. cbn. rewrite ?Hpc, ?Htd. done.
  - (* a goroutine sees the closed channel *)
    match goal with
    | Hg : gos m !! _ = Some GRange |- _ =>
        pose proof (countb_pos not_done _ _ _ Hg eq_refl)
    end.
    unfold upd_go.
    eapply (closing_go_moves K m j GRange GLeft); eauto; cbn; lia.
  - (* Done on an exhausted counter *)
    exfalso.
    match goal with
    | Hg : gos m !! _ = Some GLeft |- _ =>
        pose proof (countb_pos not_done _ _ _ Hg eq_refl)
    end. lia.
  - (* Done *)
    unfold upd_pool, upd_go. cbn.
    assert (work (pool m) = Closed) as Hw.
    { destruct (work (pool m)) eqn:Hw; [|done].
      match goal with
      | Hg : gos m !! _ = Some GLeft |- _ => by specialize (Hopen eq_refl _ _ Hg)
      end. }
    match goal with
    | Hg : gos m !! _ = Some GLeft |- _ =>
        pose proof (countb_pos not_done _ _ _ Hg eq_refl)
    end.
    eapply (closing_go_moves K m j GLeft GExit); eauto; cbn; lia.
  - (* close(p.work) *)
    destruct Hsh as [|Hpc Htd Hr Hwo Heo| | |]; try congruence.
    unfold upd_pool, upd_thr. cbn.
    eapply closing_main_moves; [exact HC|eassumption|..]; try done.
    + by apply sh_err.
    + unfold shut_left. cbn. rewrite ?Hpc, ?Htd. done.
  - (* close(p.errChan) *)
    destruct Hsh as [| |Hpc Htd Hr Hwo Heo| |]; try congruence.
    unfold upd_pool, upd_thr. cbn.
    eapply closing_main_moves; [exact HC|eassumption|..]; try done.
    + by apply sh_wait.
    + unfold shut_left. cbn. rewrite ?Hpc, ?Htd. done.
  - (* Wait returns *)
    destruct Hsh as [| | |Hpc Htd Hr Hwo Heo|]; try congruence.
    unfold upd_thr.
    eapply closing_main_moves; [exact HC|eassumption|..]; try done.
    + apply sh_done; cbn; try done.
      * match goal with Hx : rets _ = [] |- _ => by rewrite Hx end.
      * by apply Z.eqb_eq.
    + unfold shut_left. cbn. rewrite ?Hpc, ?Htd. done.
    + intros f. unfold thr_returned. cbn. rewrite countb_app. cbn. lia.
Qed.


Lemma run_closing K sched m m' :
  Closing K m → run sched m = Some m' →
  Closing K m'
  ∧ (closing_left m' + length sched = closing_left m)%nat
  ∧ ∀ f, returned_outcomes f m' = returned_outcomes f m.
Proof.
  revert m. induction sched as [|l ls IH]; intros m HC Hr; cbn in Hr.
  - simplify_eq. split; [done|]. split; [cbn; lia|done].
  - destruct (step l m) as [m1|] eqn:Hs; [cbn in Hr|done].
    destruct (step_closing _ _ _ _ HC Hs) as (HC1 & Hl1 & Hf1).
    destruct (IH m1 HC1 Hr) as (HC2 & Hl2 & Hf2).
    split; [done|]. split; [cbn; lia|]. intros f. by rewrite Hf2, Hf1.
Qed.

Lemma closing_progress K m th :
  Closing K m → thr m !! K = Some th → finished th = false →
  ∃ l m', step l m = Some m'.
Proof.
  intros [Hc Hwg Hgos Hopen Hcl (th' & HtK & Hsh)] Ht Hfin.
  rewrite Ht in HtK. simplify_eq.
  destruct Hsh as [Hpc Htd Hr Hwo Heo|Hpc Htd Hr Hwo Heo|Hpc Htd Hr Hwo Heo
                  |Hpc Htd Hr Hwo Heo|Hpc Htd Hr Hwo Heo Hz].
  - exists (LCall K). unfold step. rewrite Hc, Ht. cbn.
    rewrite Hpc, Htd. eauto.
  - exists (LCloseWork K). unfold step. rewrite Hc, Ht. cbn.
    rewrite Hpc, Hwo. eauto.
  - exists (LCloseErr K). unfold step. rewrite Hc, Ht. cbn.
    rewrite Hpc, Heo. eauto.
  - destruct (wg (pool m) =? 0) eqn:Hz.
    + exists (LWait K). unfold step. rewrite Hc, Ht. cbn.
      rewrite Hpc, Hz. eauto.
    + apply Z.eqb_neq in Hz.
      destruct (countb_ex not_done (gos m) ltac:(lia)) as (j & g & Hj & Hnd).
      destruct (Hgos _ _ Hj) as [->|[->| ->]]; [| |done].
      * exists (LRangeEnd j). unfold step. rewrite Hc, Hj. cbn.
        rewrite Hwo. eauto.
      * exists (LDone j). unfold step. rewrite Hc, Hj. cbn.
        destruct (wg (pool m) <? 1); eauto.
  - unfold finished in Hfin. by rewrite Hpc, Htd in Hfin.
Qed.

Lemma closing_done K m th :
  Closing K m → thr m !! K = Some th →
  (finished th = true ↔ closing_left m = 0%nat)
  ∧ (finished th = true →
     rets th = [RShutdown]
     ∧ work (pool m) = Closed ∧ errChan (pool m) = Closed
     ∧ wg (pool m) = 0
     ∧ ∀ j g, gos m !! j = Some g → g = GExit).
Proof.
  intros [Hc Hwg Hgos Hopen Hcl (th' & HtK & Hsh)] Ht.
  rewrite Ht in HtK. simplify_eq.
  assert (finished th' = true →
          rets th' = [RShutdown]
          ∧ work (pool m) = Closed ∧ errChan (pool m) = Closed
          ∧ wg (pool m) = 0
          ∧ ∀ j g, gos m !! j = Some g → g = GExit) as Hdone.
  { intros Hfin. unfold finished in Hfin.
    destruct Hsh as [Hpc Htd Hr Hwo Heo|Hpc Htd Hr Hwo Heo|Hpc Htd Hr Hwo Heo
                    |Hpc Htd Hr Hwo Heo|Hpc Htd Hr Hwo Heo Hz];
      rewrite Hpc, ?Htd in Hfin; try done.
    repeat (split; [done|]). intros j g Hj.
    assert (countb not_done (gos m) = 0%nat) as Hn by lia.
    pose proof (countb_zero _ _ Hn j g Hj). by destruct g. }
  split; [|done]. unfold closing_left. split.
  - intros Hfin. destruct (Hdone Hfin) as (_ & _ & _ & _ & Hex).
    assert (total shut_left (thr m) = 0%nat) as ->.
    { apply total_zero. intros t x Hx.
      assert (finished x = true) as Hf.
      { destruct (decide (t = K)) as [->|Hne]; [congruence|eauto]. }
      unfold finished, shut_left in *. destruct (at_pc x), (todo x); done. }
    apply total_zero. intros j g Hj. by rewrite (Hex _ _ Hj).
  - intros Hz.
    assert (total shut_left (thr m) = 0%nat) as Ht0 by lia.
    pose proof (proj1 (total_zero _ _) Ht0 K th' Ht) as Hl.
    unfold shut_left, finished in *.
    destruct Hsh as [Hpc Htd Hr Hwo Heo|Hpc Htd Hr Hwo Heo|Hpc Htd Hr Hwo Heo
                    |Hpc Htd Hr Hwo Heo|Hpc Htd Hr Hwo Heo Hz'];
      rewrite Hpc, ?Htd in *; done.
Qed.

Lemma run_app s1 s2 m :
  run (s1 ++ s2) m = run s1 m ≫= run s2.
Proof.
  revert m. induction s1 as [|l s1 IH]; intros m; cbn; [done|].
  destruct (step l m) as [m1|]; cbn; [apply IH|done].
Qed.

Lemma run_thr_len sched m m' :
  run sched m = Some m' → length (thr m') = length (thr m).
Proof.
  revert m. induction sched as [|l ls IH]; intros m Hr; cbn in Hr.
  - by simplify_eq.
  - destruct (step l m) as [m1|] eqn:Hs; [cbn in Hr|done].
    rewrite (IH _ Hr). by eapply step_thr_len.
Qed.

Lemma program_thr_len N progs sched m :
  program N progs sched = Some m → length (thr m) = length progs.
Proof.
  unfold program. intros Hp.
  destruct (boot N progs) as [m0|] eqn:Hb; simplify_option_eq.
  rewrite (run_thr_len _ _ _ Hp).
  unfold boot, New in Hb. destruct (Z.ltb_spec N 0); simplify_option_eq.
  cbn. by rewrite length_fmap.
Qed.

Lemma run_only_clients (ws : list W) : run_only (clients ws) = true.
Proof. induction ws as [|w ws IH]; [done|]. unfold run_only in *. by cbn. Qed.

Lemma calls_clients (ws : list W) : calls (clients ws) = length ws.
Proof.
  unfold calls, clients. induction ws as [|w ws IH]; [done|].
  cbn in *. by rewrite IH.
Qed.

Lemma submitted_clients f (ws : list W) :
  submitted_outcomes f (clients ws) = countb (λ w, f (Task w)) ws.
Proof.
  unfold submitted_outcomes, clients. induction ws as [|w ws IH]; [done|].
  cbn in *. rewrite IH. lia.
Qed.

Lemma forallb_false_ex {A} (f : A → bool) (l : list A) :
  forallb f l = false → ∃ i x, l !! i = Some x ∧ f x = false.
Proof.
  induction l as [|a l IH]; cbn; [done|]. destruct (f a) eqn:Ha; cbn.
  - intros (i & x & Hi & Hx)%IH. by exists (S i), x.
  - intros _. by exists 0%nat, a.
Qed.

Lemma forallb_all {A} (f : A → bool) (l : list A) :
  forallb f l = true ↔ ∀ i x, l !! i = Some x → f x = true.
Proof.
  split; [intros Hf i x; by apply forallb_lookup|].
  induction l as [|a l IH]; intros Hall; cbn; [done|].
  rewrite (Hall 0%nat a eq_refl), IH; [done|].
  intros i x Hi. apply (Hall (S i) x Hi).
Qed.

(** From any state of a program that only submits work, on at least one
    goroutine, some schedule brings every call to its return. *)
Lemma calm_can_finish N m :
  1 ≤ N → Inv N m → Calm m →
  ∃ sched m', run sched m = Some m' ∧ forallb finished (thr m') = true.
Proof.
  intros HN. remember (steps_left m) as n eqn:Hn. revert m Hn.
  induction n as [|n IH]; intros m Hn HI HC.
  - exists [], m. split; [done|]. apply forallb_all.
    apply (finished_left m HC (inv_pair _ _ HI (calm_err _ HC))). done.
  - destruct (forallb finished (thr m)) eqn:Hf.
    + by exists [], m.
    + apply forallb_false_ex in Hf as (t & th & Ht & Hfin).
      destruct (calm_progress N m t th HN HI HC Ht Hfin) as (l & m1 & Hs).
      pose proof (step_left _ _ _ HC Hs) as Hl.
      destruct (IH m1 ltac:(lia) (step_inv _ _ _ _ HI Hs) (step_calm _ _ _ HC Hs))
        as (sched & m' & Hr & Hfin').
      exists (l :: sched), m'. cbn. rewrite Hs. by cbn.
Qed.

(** From any state of the driver after the wait, some schedule brings
    [Shutdown] to its return. *)
Lemma closing_can_finish K m :
  Closing K m →
  ∃ sched m', run sched m = Some m' ∧ closing_left m' = 0%nat.
Proof.
  remember (closing_left m) as n eqn:Hn. revert m Hn.
  induction n as [|n IH]; intros m Hn HC.
  - by exists [], m.
  - destruct (cl_main _ _ HC) as (th & Ht & _).
    destruct (finished th) eqn:Hfin.
    + pose proof (proj1 (proj1 (closing_done K m th HC Ht)) Hfin). lia.
    + destruct (closing_progress K m th HC Ht Hfin) as (l & m1 & Hs).
      destruct (step_closing _ _ _ _ HC Hs) as (HC1 & Hl & _).
      destruct (IH m1 ltac:(lia) HC1) as (sched & m' & Hr & Hz).
      exists (l :: sched), m'. cbn. rewrite Hs. by cbn.
Qed.

Lemma total_const {A} (f : A → nat) (l : list A) c :
  (∀ i x, l !! i = Some x → f x = c) → total f l = (length l * c)%nat.
Proof.
  induction l as [|a l IH]; intros Hall; cbn; [done|].
  rewrite (Hall 0%nat a eq_refl), IH; [lia|].
  intros i x Hi. apply (Hall (S i) x Hi).
Qed.

Lemma join_closing N ws before m mj :
  program N (clients ws) before = Some m → join m = Some mj →
  Closing (length ws) mj
  ∧ closing_left mj = (4 + 2 * Z.to_nat N)%nat
  ∧ (∀ f, returned_outcomes f mj = countb (λ w, f (Task w)) ws)
  ∧ length before = (4 * length ws)%nat.
Proof.
  intros Hp Hj. unfold join in Hj.
  destruct (forallb finished (thr m)) eqn:Hfb; [|done]. simplify_eq.
  pose proof (proj1 (forallb_all _ _) Hfb) as Hfin.
  pose proof (run_only_clients ws) as Hro.
  pose proof (program_calm _ _ _ _ Hro Hp) as HC.
  pose proof (program_inv _ _ _ _ Hp) as HI.
  pose proof (inv_pair _ _ HI (calm_err _ HC)) as Hpair.
  pose proof (program_thr_len _ _ _ _ Hp) as Hlen.
  unfold clients in Hlen. rewrite length_fmap in Hlen.
  assert (∀ j g, gos m !! j = Some g → g = GRange) as Hrange.
  { assert (countb awaiting (thr m) = 0%nat) as Ha.
    { apply countb_all. intros t th Ht. specialize (Hfin _ _ Ht).
      unfold finished, awaiting in *. by destruct (at_pc th). }
    rewrite Ha in Hpair. symmetry in Hpair. intros j g Hg.
    pose proof (countb_zero _ _ Hpair j g Hg).
    pose proof (calm_gos _ HC j g Hg). by destruct g. }
  destruct HC as [Hw He Hc Hthr Hgos].
  split; [split; cbn|split; [|split]].
  - done.
  - apply (inv_wg _ _ HI).
  - intros j g Hg. left. eauto.
  - done.
  - intros t th [Ht|[Hge Ht]]%lookup_app_Some Hne; [eauto|].
    apply lookup_singleton_inv in Ht as [Ht _]. lia.
  - eexists. split; [rewrite <- Hlen; apply list_lookup_middle; done|].
    by apply sh_start.
  - unfold closing_left. cbn. rewrite total_app. cbn.
    rewrite (total_const shut_left (thr m) 0%nat).
    + rewrite (total_const exit_left (gos m) 2%nat).
      * rewrite (inv_len _ _ HI). lia.
      * intros j g Hg. by rewrite (Hrange _ _ Hg).
    + intros t th Ht. specialize (Hfin _ _ Ht).
      unfold finished, shut_left in *. destruct (at_pc th), (todo th); done.
  - intros f. unfold returned_outcomes. cbn. rewrite total_app. cbn.
    pose proof (program_conserve_finished f _ _ _ _ Hro Hp Hfin) as Hall.
    unfold returned_outcomes in Hall. rewrite Hall, submitted_clients.
    unfold thr_returned. cbn. lia.
  - pose proof (program_left _ _ _ _ Hro Hp) as Hl.
    pose proof (proj1 (finished_left m (mkCalm _ Hw He Hc Hthr Hgos) Hpair) Hfin).
    rewrite calls_clients in Hl. lia.
Qed.

Lemma driver_split N ws before after m :
  driver N ws before after = Some m →
  ∃ ma mj, program N (clients ws) before = Some ma
           ∧ join ma = Some mj ∧ run after mj = Some m.
Proof.
  unfold driver. intros Hd.
  destruct (program N (clients ws) before) as [ma|] eqn:Hp; [cbn in Hd|done].
  destruct (join ma) as [mj|] eqn:Hj; [cbn in Hd|done]. eauto.
Qed.

Lemma driver_closing N ws before after m :
  driver N ws before after = Some m →
  Closing (length ws) m
  ∧ (closing_left m + length after = 4 + 2 * Z.to_nat N)%nat
  ∧ (∀ f, returned_outcomes f m = countb (λ w, f (Task w)) ws)
  ∧ length before = (4 * length ws)%nat.
Proof.
  intros (ma & mj & Hp & Hj & Hr)%driver_split.
  destruct (join_closing _ _ _ _ _ Hp Hj) as (HC & Hl & Hf & Hb).
  destruct (run_closing _ _ _ _ HC Hr) as (HC' & Hl' & Hf').
  split; [done|]. split; [lia|]. split; [|done].
  intros f. by rewrite Hf', Hf.
Qed.

Lemma driver_can_finish N ws :
  1 ≤ N →
  ∃ before after m th,
    driver N ws before after = Some m
    ∧ thr m !! length ws = Some th ∧ finished th = true.
Proof.
  intros HN.
  destruct (boot N (clients ws)) as [m0|] eqn:Hb.
  2:{ unfold boot, New in Hb. destruct (Z.ltb_spec N 0); [lia|done]. }
  destruct (calm_can_finish N m0 HN (boot_inv _ _ _ Hb)
              (boot_calm _ _ _ (run_only_clients ws) Hb))
    as (before & ma & Hra & Hfin).
  assert (program N (clients ws) before = Some ma) as Hp.
  { unfold program. rewrite Hb. done. }
  assert (join ma = Some (mkMachine (pool ma) (gos ma)
            (thr ma ++ [mkThread Idle [CShutdown] []]) (crashed ma))) as Hj.
  { unfold join. by rewrite Hfin. }
  destruct (join_closing _ _ _ _ _ Hp Hj) as (HC & _).
  destruct (closing_can_finish _ _ HC) as (after & m & Hr & Hz).
  destruct (run_closing _ _ _ _ HC Hr) as (HC' & _).
  destruct (cl_main _ _ HC') as (th & Ht & _).
  exists before, after, m, th. split; [|split; [done|]].
  - unfold driver. rewrite Hp. cbn. rewrite Hj. done.
  - by apply (closing_done _ _ _ HC' Ht).
Qed.



(** ** A pool of one goroutine *)

Lemma step_solo l m m' :
  Inv 1 m → Calm m → Solo m → step l m = Some m' → Solo m'.
Proof.
  intros HI HC [Hheld Hrets] Hs.
  pose proof (inv_pair _ _ HI (calm_err _ HC)) as Hpair.
  pose proof (inv_len _ _ HI) as Hlen. change (Z.to_nat 1) with 1%nat in Hlen.
  assert (∀ j g, gos m !! j = Some g → j = 0%nat) as Hj0.
  { intros j g Hj. apply lookup_lt_Some in Hj. lia. }
  destruct HC as [Hw He Hc Hthr Hgos].
  split.
  - destruct l; step_cases Hs; cbn in *; try congruence;
      try match goal with
          | Hg : gos _ !! _ = Some _ |- _ => by specialize (Hgos _ _ Hg)
          end;
      intros t' th' w' j' g' Ht' Hpc' Hj' Hb';
      try (apply list_lookup_insert_Some in Ht' as [(-> & <- & _)|[Hnet Ht']]);
      try (apply list_lookup_insert_Some in Hj' as [(-> & <- & _)|[Hnej Hj']]);
      cbn in *; try done; try congruence; eauto.
    + by destruct c.
    + left. congruence.
    + match goal with
      | Hg : gos m !! _ = Some GRange |- _ => pose proof (Hj0 _ _ Hg)
      end. pose proof (Hj0 _ _ Hj'). congruence.
    + exfalso.
      assert (0 < countb awaiting (thr m))%nat as Hpos.
      { apply (countb_pos awaiting _ _ _ Ht'). unfold awaiting. by rewrite Hpc'. }
      rewrite Hpair in Hpos.
      destruct (countb_ex _ _ Hpos) as (j0 & g0 & Hg0 & Hb0).
      match goal with
      | Hg : gos m !! _ = Some GRange |- _ =>
          pose proof (Hj0 _ _ Hg); pose proof (Hj0 _ _ Hg0); by simplify_eq
      end.
    + match goal with
      | Hg : gos m !! _ = Some (GTask _) |- _ =>
          destruct (Hheld _ _ _ _ _ Ht' Hpc' Hg eq_refl) as [?|?]; simplify_eq
      end. by right.
  - destruct l; step_cases Hs; cbn in *; try congruence;
      intros t' th' w' e' Ht' Hin';
      try (apply list_lookup_insert_Some in Ht' as [(-> & <- & _)|[_ Ht']]);
      cbn in *; eauto;
      apply elem_of_app in Hin' as [Hin'|Hin'%list_elem_of_singleton];
      eauto; simplify_eq.
    match goal with
    | Hg : gos m !! _ = Some (GSend _ _), Ht : thr m !! _ = Some ?th,
      Hp : at_pc ?th = RunRecv _ |- _ =>
        destruct (Hheld _ _ _ _ _ Ht Hp Hg eq_refl) as [?|?]; by simplify_eq
    end.
Qed.

Lemma boot_solo N progs m : boot N progs = Some m → Solo m.
Proof.
  unfold boot, New. intros Hb. destruct (Z.ltb_spec N 0); simplify_option_eq.
  split; cbn.
  - intros t th w j g (cs & -> & _)%list_lookup_fmap_Some. done.
  - intros t th w e (cs & -> & _)%list_lookup_fmap_Some Hin.
    by apply elem_of_nil in Hin.
Qed.

(** X12: on a pool of one goroutine the shared result channel cannot
    cross results.  In a program that only submits work to [New(1)],
    however many clients call [Run] at once, every [Run(w)] that has
    returned did so with exactly the value of [w.Task()], and a client
    waiting for its outcome is the one whose task the goroutine holds. *)
Theorem single_worker_returns_own_outcome progs sched m :
  run_only progs = true →
  program 1 progs sched = Some m →
  (∀ t th w e, thr m !! t = Some th → RRun w e ∈ rets th → e = Task w)
  ∧ (∀ t th w j g, thr m !! t = Some th → at_pc th = RunRecv w →
       gos m !! j = Some g → busy g = true →
       g = GTask w ∨ g = GSend w (Task w)).
Proof.
  intros Hro Hp.
  assert (Solo m) as [Hheld Hrets]; [|by split].
  unfold program in Hp.
  destruct (boot 1 progs) as [m0|] eqn:Hb; simplify_option_eq.
  pose proof (boot_inv _ _ _ Hb) as HI.
  pose proof (boot_calm _ _ _ Hro Hb) as HC.
  pose proof (boot_solo _ _ _ Hb) as HS. clear Hb.
  revert m0 Hp HI HC HS.
  induction sched as [|l ls IH]; intros m0 Hp HI HC HS; cbn in Hp.
  - by simplify_eq.
  - destruct (step l m0) as [m1|] eqn:Hs; [cbn in Hp|done].
    eapply IH; eauto using step_inv, step_calm, step_solo.
Qed.


End Proofs.

(** * The demonstration program *)

(** C1: [New(2)] and two concurrent callers.  Both tasks are accepted;
    the second finishes first and its outcome is received by the first
    caller, whose [Run(steve)] returns the failure of [jason] while
    [steve.Task()] is still executing.  [Run] reads the one [errChan]
    shared by all goroutines, so a return is neither tied to the caller's
    own task nor to its completion. *)
Theorem run_returns_foreign_outcome :
  ∃ m, program 2 duo crossed = Some m
    ∧ thr m !! 0%nat = Some (mkThread Idle [] [RRun steve (Task jason)])
    ∧ Task jason ≠ Task steve
    ∧ gos m !! 0%nat = Some (GTask steve)
    ∧ thr m !! 1%nat = Some (mkThread (RunRecv jason) [] []).
Proof. eexists. split; [reflexivity|]. repeat split. discriminate. Qed.

(** C7: the same run carried to its end.  The failure returned by
    [jason.Task()] is the outcome of [Run(steve)], and [Run(jason)], the
    call that submitted the failing task, returns [nil]. *)
Theorem failure_reaches_wrong_caller :
  Task jason = Some "Invalid name"%string ∧ Task steve = None
  ∧ program 2 duo (crossed ++ [LTask 0; LDeliver 0 1])
    = Some (mkMachine (mkPool Open 2 Open) [GRange; GRange]
              [mkThread Idle [] [RRun steve (Some "Invalid name"%string)];
               mkThread Idle [] [RRun jason None]] false).
Proof. repeat split. Qed.

(** C3: [New(1)], one caller inside [Run] and one calling [Shutdown].
    [Shutdown] closes [errChan] before it waits, so the goroutine that
    finishes its task panics at [p.errChan <- w.Task()], never reaches
    [p.wg.Done()], and the counter stays at 1 under every continuation:
    [Shutdown] never returns. *)
Theorem shutdown_makes_worker_panic :
  ∃ m, program 1 [[CRun steve]; [CShutdown]] early_close = Some m
    ∧ gos m = [GPanic] ∧ crashed m = true ∧ wg (pool m) = 1
    ∧ thr m !! 1%nat = Some (mkThread ShutWait [] [])
    ∧ ∀ sched m', run sched m = Some m' → m' = m.
Proof.
  eexists. split; [reflexivity|]. repeat split.
  intros [|l ls] m' Hr; simplify_option_eq; done.
Qed.

(** * Instances of the theorems on the demonstration program *)

Lemma at_most_N_executing_witness :
  1 ≤ 2 ∧ program 2 duo [LCall 0; LCall 1; LHandoff 0 0; LHandoff 1 1]
          = Some two_busy
  ∧ Z.of_nat (executing two_busy) ≤ 2.
Proof.
  assert (program 2 duo [LCall 0; LCall 1; LHandoff 0 0; LHandoff 1 1]
          = Some two_busy) as Hp by reflexivity.
  split; [lia|]. split; [exact Hp|].
  apply (at_most_N_executing 2 _ _ _ ltac:(lia) Hp).
Defined.

Lemma shutdown_waits_for_all_witness :
  program 1 [[CShutdown]] shutdown_alone
  = Some (shut_down (mkThread Idle [] [RShutdown]))
  ∧ (∀ j g, gos (shut_down (mkThread Idle [] [RShutdown])) !! j = Some g →
       g = GExit).
Proof.
  assert (program 1 [[CShutdown]] shutdown_alone
          = Some (shut_down (mkThread Idle [] [RShutdown]))) as Hp
    by reflexivity.
  split; [exact Hp|].
  apply (shutdown_waits_for_all 1 _ _ _ 0%nat (mkThread Idle [] [RShutdown]) Hp).
  - reflexivity.
  - simpl. left.
Defined.


Lemma handoff_is_rendezvous_witness :
  program 1 duo [LCall 0; LCall 1; LHandoff 0 0] = Some one_busy
  ∧ ∀ l m', step l one_busy = Some m' →
      thr m' !! 1%nat = Some (mkThread (RunSend jason) [] []).
Proof.
  assert (program 1 duo [LCall 0; LCall 1; LHandoff 0 0] = Some one_busy)
    as Hp by reflexivity.
  split; [exact Hp|].
  intros l m' Hs.
  destruct (handoff_is_rendezvous 1 _ _ _ Hp) as (_ & Hblock & _).
  apply (Hblock ltac:(by intros [|[|j]] g; simpl; intros; simplify_eq)
           eq_refl l m' 1%nat _ jason Hs eq_refl eq_refl).
Defined.

Lemma misuse_after_shutdown_panics_witness :
  program 1 [[CShutdown; CRun steve]] (shutdown_alone ++ [LCall 0])
  = Some (shut_down (mkThread (RunSend steve) [] [RShutdown]))
  ∧ step (LSendClosed 0) (shut_down (mkThread (RunSend steve) [] [RShutdown]))
    = Some (mkMachine (mkPool Closed 0 Closed) [GExit]
              [mkThread Panicked [] [RShutdown]] true).
Proof.
  assert (program 1 [[CShutdown; CRun steve]] (shutdown_alone ++ [LCall 0])
          = Some (shut_down (mkThread (RunSend steve) [] [RShutdown]))) as Hp
    by reflexivity.
  split; [exact Hp|].
  assert (RShutdown ∈ rets (mkThread (RunSend steve) [] [RShutdown])) as Hin
    by (simpl; left).
  destruct (misuse_after_shutdown_panics 1 _ _ _ 0%nat _ 0%nat _ Hp
              eq_refl eq_refl (or_intror Hin) eq_refl)
    as [Hrun _].
  exact (proj1 (Hrun steve eq_refl)).
Defined.

Lemma sequential_run_returns_own_outcome_witness :
  ∃ sched m,
    program 2 [CRun <$> [steve; jason]] sched = Some m
    ∧ thr m = [mkThread Idle []
                 [RRun steve None; RRun jason (Some "Invalid name"%string)]].
Proof.
  exact (proj2 (proj2 (sequential_run_returns_own_outcome 2 [steve; jason])
                  ltac:(lia))).
Defined.

Lemma New_zero_pool_witness :
  New (W:=namePrinter) 0 = Some (mkPool Open 0 Open, []).
Proof. exact (proj1 New_zero_pool). Defined.

(** * The program [main] *)

(** X11: [main] under every interleaving.  It never panics; its seven
    [Run] calls take 28 steps and the shutdown at most 8; and once [main]
    has passed its wait exactly one [Run] call has returned a failure, the
    "Invalid name" of the task named jason, and six have returned [nil]
    (which caller receives the failure depends on the schedule).  Some
    schedule runs [main] to the return of [Shutdown]. *)
Theorem main_reports_one_failure :
  (∀ before after m, main before after = Some m →
     crashed m = false
     ∧ returned_outcomes is_failure m = 1%nat
     ∧ returned_outcomes (λ e, bool_decide (e = Some "Invalid name"%string)) m
       = 1%nat
     ∧ returned_outcomes (λ e, negb (is_failure e)) m = 6%nat
     ∧ length before = 28%nat ∧ (length after ≤ 8)%nat)
  ∧ ∃ before after m,
      main before after = Some m
      ∧ thr m !! 7%nat = Some (mkThread Idle [] [RShutdown]).
Proof.
  split.
  - intros before after m Hm. unfold main in Hm.
    destruct (driver_closing _ _ _ _ _ Hm) as (HC & Hl & Hf & Hb).
    split; [apply (cl_crashed _ _ HC)|].
    rewrite !Hf. repeat (split; [reflexivity|]).
    split; [exact Hb|]. change (Z.to_nat 2) with 2%nat in Hl. lia.
  - destruct (driver_can_finish 2 (mkNamePrinter <$> names) ltac:(lia))
      as (before & after & m & th & Hd & Ht & Hfin).
    exists before, after, m. split; [exact Hd|].
    destruct (driver_closing _ _ _ _ _ Hd) as (HC & _).
    destruct (closing_done _ _ _ HC Ht) as [_ Hdone].
    destruct (Hdone Hfin) as (Hr & _).
    change (length (mkNamePrinter <$> names)) with 7%nat in Ht.
    rewrite Ht. f_equal. unfold finished in Hfin.
    destruct th as [pc0 td0 rs0]; cbn in *.
    destruct pc0, td0; try done. by subst.
Qed.

(** * Instances of the further theorems *)


Lemma run_only_step_count_witness :
  (length [LCall 0; LCall 1; LHandoff 0 0; LHandoff 1 1] ≤ 4 * calls duo)%nat.
Proof.
  assert (program 2 duo [LCall 0; LCall 1; LHandoff 0 0; LHandoff 1 1]
          = Some two_busy) as Hp by reflexivity.
  exact (proj1 (run_only_step_count 2 duo _ two_busy eq_refl Hp)).
Defined.


Lemma run_only_outcomes_conserved_witness :
  (returned_outcomes is_failure two_busy + pending_outcomes is_failure two_busy
   = submitted_outcomes is_failure duo)%nat.
Proof.
  assert (program 2 duo [LCall 0; LCall 1; LHandoff 0 0; LHandoff 1 1]
          = Some two_busy) as Hp by reflexivity.
  exact (proj1 (run_only_outcomes_conserved is_failure 2 duo _ two_busy
                  eq_refl Hp)).
Defined.

Lemma run_returns_only_task_outcomes_witness :
  program 2 duo crossed = Some after_crossed
  ∧ ∃ w', w' ∈ submitted duo ∧ Task w' = Some "Invalid name"%string.
Proof.
  assert (program 2 duo crossed = Some after_crossed) as Hp by reflexivity.
  split; [exact Hp|].
  assert (RRun steve (Some "Invalid name"%string)
          ∈ rets (mkThread Idle [] [RRun steve (Some "Invalid name"%string)]))
    as Hin by (simpl; left).
  exact (proj2 (run_returns_only_task_outcomes 2 duo crossed after_crossed
                  0%nat _ steve _ Hp eq_refl Hin)).
Defined.

Lemma run_is_monotone_witness :
  run [LTask 1; LDeliver 1 0] two_busy = Some after_crossed
  ∧ wg (pool after_crossed) ≤ wg (pool two_busy).
Proof.
  assert (run [LTask 1; LDeliver 1 0] two_busy = Some after_crossed) as Hr
    by reflexivity.
  split; [exact Hr|].
  exact (proj1 (proj2 (proj2 (run_is_monotone _ _ _ Hr)))).
Defined.


Lemma calls_in_program_order_witness :
  program 2 duo crossed = Some after_crossed
  ∧ (length (rets (mkThread (W:=namePrinter) Idle []
                     [RRun steve (Some "Invalid name"%string)])) ≤ 1)%nat.
Proof.
  assert (program 2 duo crossed = Some after_crossed) as Hp by reflexivity.
  split; [exact Hp|].
  exact (proj2 (calls_in_program_order 2 duo crossed after_crossed 0%nat
                  [CRun steve] _ Hp eq_refl eq_refl ltac:(discriminate))).
Defined.



Lemma single_worker_returns_own_outcome_witness :
  program 1 duo (serve 1) = Some solo_served
  ∧ ∀ t th w e, thr solo_served !! t = Some th → RRun w e ∈ rets th →
      e = Task w.
Proof.
  assert (program 1 duo (serve 1) = Some solo_served) as Hp by reflexivity.
  split; [exact Hp|].
  exact (proj1 (single_worker_returns_own_outcome duo _ solo_served
                  eq_refl Hp)).
Defined.

Lemma main_reports_one_failure_witness :
  main (serve_each 7) [] = Some main_joined
  ∧ returned_outcomes is_failure main_joined = 1%nat.
Proof.
  assert (main (serve_each 7) [] = Some main_joined) as Hm by reflexivity.
  split; [exact Hm|].
  exact (proj1 (proj2 (proj1 main_reports_one_failure _ _ _ Hm))).
Defined.
